(** * Table-tennis tournament engine: bracket generation, result recording,
      progression and standings.

    A shallow embedding of [routes/tournaments.js] (bracket generators,
    [POST /:id/generate-bracket], [POST /:id/manual-seeding], [DELETE /:id])
    and of the matches router ([PUT /:id/result], [PUT /:id/start],
    [POST /check-tournament-completion/:tournamentId], [generateNextMatch],
    [finalizeTournament], [calculateFinalPositions], [calculatePoints],
    [updateRankings]).

    The Prisma store is an explicit record of tables that every handler
    threads through; a handler returns the new store together with its HTTP
    response.  JavaScript arrays are lists read with [!!] and written with
    [<[i:=x]>]; [null] and [undefined] slots are [None]. *)

From Stdlib Require Import ZArith Lia ZifyNat Permutation Sorted.
From stdpp Require Import base list strings.

Local Open Scope Z_scope.

(** ** Data model *)

(** The three lifecycle strings ['Pendiente'], ['En curso'], ['Finalizado']
    shared by tournaments and matches. *)
Inductive Estado := Pendiente | EnCurso | Finalizado.

#[global] Instance Estado_eq_dec : EqDecision Estado.
Proof. solve_decision. Defined.

Module Player.
Record t := mk { id : Z; nombre : string; puntos : Z; ranking : Z }.
Definition withPuntos (p : t) (v : Z) : t := mk (id p) (nombre p) v (ranking p).
Definition withRanking (p : t) (v : Z) : t := mk (id p) (nombre p) (puntos p) v.
End Player.

Module Tournament.
Record t := mk { id : Z; tipo : string; estado : Estado; setsPorPartido : Z }.
Definition withEstado (x : t) (e : Estado) : t := mk (id x) (tipo x) e (setsPorPartido x).
End Tournament.

Module Match.
Record t := mk {
  id : Z; torneoId : Z; jugador1Id : Z; jugador2Id : option Z;
  ronda : Z; fase : string; estado : Estado;
  setsJ1 : Z; setsJ2 : Z; ganadorId : option Z }.
End Match.

(** The object literals pushed by the generators and handed to
    [prisma.match.createMany]: the last four fields are optional. *)
Module NewMatch.
Record t := mk {
  torneoId : Z; jugador1Id : Z; jugador2Id : option Z;
  ronda : Z; fase : string;
  ganadorId : option Z; setsJ1 : option Z; setsJ2 : option Z;
  estado : option Estado }.
End NewMatch.

Module SetRow.
Record t := mk {
  partidoId : Z; numeroSet : Z; puntosJ1 : Z; puntosJ2 : Z;
  ganadorId : option Z }.
End SetRow.

(** A JavaScript string built at run time, as its UTF-16 code units. *)
Definition JsString := list N.

(** The code units of an ASCII literal. *)
Definition jsLiteral (s : string) : JsString :=
  Ascii.N_of_ascii <$> String.list_ascii_of_string s.

(** [String.fromCharCode(code)]: one code unit, [code] modulo [2^16]. *)
Definition fromCharCode (code : nat) : JsString := [(N.of_nat code mod 65536)%N].

Module Group.
Record t := mk { torneoId : Z; nombre : JsString; jugadores : list Z }.
End Group.

Module TournamentResult.
Record t := mk {
  torneoId : Z; jugadorId : Z; posicionFinal : Z; puntosGanados : Z }.
End TournamentResult.

Record Store := mkStore {
  players : list Player.t;
  tournaments : list Tournament.t;
  matches : list Match.t;
  sets : list SetRow.t;
  groups : list Group.t;
  tournamentResults : list TournamentResult.t;
  nextMatchId : Z }.

Definition emptyStore : Store := mkStore [] [] [] [] [] [] 1.

(** JavaScript truthiness of a nullable integer column ([if (m.ganadorId)]). *)
Definition truthy (o : option Z) : bool :=
  match o with
  | Some v => negb (v =? 0)
  | None => false
  end.

(** [arr[i]] on an array of nullable objects: out of range reads
    [undefined], which is as falsy as [null]. *)
Definition slot {A} (arr : list (option A)) (i : nat) : option A :=
  match arr !! i with
  | Some (Some x) => Some x
  | _ => None
  end.

(** ** Sorting

    [Array.prototype.sort] and Prisma's [orderBy] are modelled by a stable
    insertion sort; [le a b] says that [a] may stand before [b]. *)
Fixpoint insertBy {A} (le : A → A → bool) (x : A) (l : list A) : list A :=
  match l with
  | [] => [x]
  | y :: l' => if le x y then x :: y :: l' else y :: insertBy le x l'
  end.

Definition sortBy {A} (le : A → A → bool) (l : list A) : list A :=
  foldr (insertBy le) [] l.

(** ** Bracket generators (routes/tournaments.js) *)

Definition realMatch (tournamentId : Z) (p1 p2 : Player.t) (round : Z) : NewMatch.t :=
  NewMatch.mk tournamentId (Player.id p1) (Some (Player.id p2)) round "Principal"
              None None None None.

Definition byeMatch (tournamentId : Z) (p1 : Player.t) : NewMatch.t :=
  NewMatch.mk tournamentId (Player.id p1) None 1 "Principal"
              (Some (Player.id p1)) (Some 1) (Some 0) (Some Finalizado).

(** [Math.ceil(Math.log2(numPlayers))] and [Math.pow(2, numRounds)], taken
    over the reals, for [numPlayers >= 1].  (For an empty list JavaScript gets
    0 slots and the model 1; either way no pair holds a player.) *)
Definition numRounds (numPlayers : nat) : nat := Nat.log2_up numPlayers.
Definition totalSlots (numPlayers : nat) : nat := (2 ^ numRounds numPlayers)%nat.

(** [while (players.length < totalSlots) players.push(null)] *)
Definition padByes (players : list (option Player.t)) (slots : nat)
  : list (option Player.t) :=
  players ++ replicate (slots - length players)%nat None.

(** [[players[i], players[j]] = [players[j], players[i]]] *)
Definition swap {A} (arr : list (option A)) (i j : nat) : list (option A) :=
  let pi := slot arr i in
  let pj := slot arr j in
  <[j := pi]> (<[i := pj]> arr).

(** The Fisher-Yates loop [for (i = length - 1; i > 0; i--)].  [rnd i] is the
    value [Math.floor(Math.random() * (i + 1))] drawn in iteration [i]. *)
Fixpoint shuffleFrom {A} (rnd : nat → nat) (i : nat) (arr : list (option A))
  : list (option A) :=
  match i with
  | O => arr
  | S i' => shuffleFrom rnd i' (swap arr i (rnd i))
  end.

Definition shuffle {A} (rnd : nat → nat) (arr : list (option A)) : list (option A) :=
  shuffleFrom rnd (length arr - 1)%nat arr.

(** The values taken by [i] in [for (let i = 0; i < slots; i += 2)]. *)
Definition evenIndices (slots : nat) : list nat :=
  (λ k, 2 * k)%nat <$> seq 0 (Nat.div2 (S slots)).

(** Body of the first-round loop: what one iteration pushes. *)
Definition firstRoundPair (tournamentId : Z) (arr : list (option Player.t)) (i : nat)
  : list NewMatch.t :=
  match slot arr i, slot arr (i + 1) with
  | Some p1, Some p2 => [realMatch tournamentId p1 p2 1]
  | Some p1, None => [byeMatch tournamentId p1]
  | None, _ => []
  end.

Definition generateEliminationBracket (rnd : nat → nat)
    (players : list Player.t) (tournamentId : Z) : list NewMatch.t :=
  let numPlayers := length players in
  let slots := totalSlots numPlayers in
  let padded := padByes (Some <$> players) slots in
  let shuffled := shuffle rnd padded in
  flat_map (firstRoundPair tournamentId shuffled) (evenIndices slots).

(** [generateGroups]: the shuffle is [sort(() => Math.random() - 0.5)],
    whose outcome is left to the engine; [shuf] stands for it. *)
Definition groupName (i : nat) : JsString :=
  jsLiteral "Grupo " ++ fromCharCode (65 + i).

Definition generateGroups (shuf : list Player.t → list Player.t)
    (players : list Player.t) (numGroups : nat) (tournamentId : Z) : list Group.t :=
  let playersPerGroup := ((length players + numGroups - 1) / numGroups)%nat in
  let shuffledPlayers := shuf players in
  (λ i, Group.mk tournamentId (groupName i)
          (Player.id <$> take playersPerGroup (drop (i * playersPerGroup) shuffledPlayers)))
    <$> seq 0 numGroups.

(** [generateRoundRobinBracket] *)
Definition playersWithBye (players : list Player.t) : list (option Player.t) :=
  if (length players mod 2 =? 0)%nat
  then Some <$> players
  else (Some <$> players) ++ [None].

(** One iteration of [for (let i = 0; i < n / 2; i++)]. *)
Definition roundRobinPair (tournamentId : Z) (round : nat)
    (arr : list (option Player.t)) (i : nat) : list NewMatch.t :=
  let n := length arr in
  match slot arr i, slot arr (n - 1 - i) with
  | Some player1, Some player2 =>
      [realMatch tournamentId player1 player2 (Z.of_nat round)]
  | _, _ => []
  end.

(** "Rotar jugadores (excepto el primero)": the in-place shift
    [for (i = 1; i < n - 1; i++) arr[i] = arr[i + 1]] followed by
    [arr[n - 1] = temp]. *)
Definition rotate {A} (arr : list (option A)) : list (option A) :=
  let n := length arr in
  let temp := slot arr 1 in
  let shifted :=
    foldl (λ acc i, <[i := slot acc (i + 1)]> acc) arr (seq 1 (n - 2)) in
  <[(n - 1)%nat := temp]> shifted.

(** [for (let round = 1; round <= n - 1; round++)], [todo] rounds left. *)
Fixpoint roundRobinLoop (tournamentId : Z) (todo round : nat)
    (arr : list (option Player.t)) : list NewMatch.t :=
  match todo with
  | O => []
  | S todo' =>
      flat_map (roundRobinPair tournamentId round arr)
               (seq 0 (Nat.div2 (S (length arr))))
      ++ roundRobinLoop tournamentId todo' (S round) (rotate arr)
  end.

Definition generateRoundRobinBracket (players : list Player.t) (tournamentId : Z)
  : list NewMatch.t :=
  let arr := playersWithBye players in
  roundRobinLoop tournamentId (length arr - 1) 1 arr.

(** ** Store operations (the Prisma calls the handlers make) *)

Definition withPlayers (s : Store) (v : list Player.t) : Store :=
  mkStore v (tournaments s) (matches s) (sets s) (groups s)
          (tournamentResults s) (nextMatchId s).

Definition withTournaments (s : Store) (v : list Tournament.t) : Store :=
  mkStore (players s) v (matches s) (sets s) (groups s)
          (tournamentResults s) (nextMatchId s).

Definition withMatches (s : Store) (v : list Match.t) (next : Z) : Store :=
  mkStore (players s) (tournaments s) v (sets s) (groups s)
          (tournamentResults s) next.

Definition withSets (s : Store) (v : list SetRow.t) : Store :=
  mkStore (players s) (tournaments s) (matches s) v (groups s)
          (tournamentResults s) (nextMatchId s).

Definition withGroups (s : Store) (v : list Group.t) : Store :=
  mkStore (players s) (tournaments s) (matches s) (sets s) v
          (tournamentResults s) (nextMatchId s).

Definition withTournamentResults (s : Store) (v : list TournamentResult.t) : Store :=
  mkStore (players s) (tournaments s) (matches s) (sets s) (groups s)
          v (nextMatchId s).

(** [prisma.tournament.findUnique({ where: { id } })] *)
Definition tournamentFindUnique (s : Store) (id : Z) : option Tournament.t :=
  List.find (λ t, Tournament.id t =? id) (tournaments s).

(** [prisma.match.findUnique({ where: { id } })] *)
Definition matchFindUnique (s : Store) (id : Z) : option Match.t :=
  List.find (λ m, Match.id m =? id) (matches s).

(** [prisma.tournament.update({ where: { id }, data: { estado } })] *)
Definition tournamentUpdateEstado (s : Store) (id : Z) (e : Estado) : Store :=
  withTournaments s
    ((λ t, if Tournament.id t =? id then Tournament.withEstado t e else t)
       <$> tournaments s).

(** [prisma.tournament.delete({ where: { id } })] *)
Definition tournamentDelete (s : Store) (id : Z) : Store :=
  withTournaments s (List.filter (λ t, negb (Tournament.id t =? id)) (tournaments s)).

(** Modelled from the spec: the Prisma schema is not among the sources, so
    the column defaults applied by [createMany] follow the data model of the
    specification: a match created without [estado] is [Pendiente], without
    sets counts has 0 sets a side, and without [ganadorId] has no winner. *)
Definition matchOfData (id : Z) (d : NewMatch.t) : Match.t :=
  Match.mk id (NewMatch.torneoId d) (NewMatch.jugador1Id d) (NewMatch.jugador2Id d)
           (NewMatch.ronda d) (NewMatch.fase d)
           (default Pendiente (NewMatch.estado d))
           (default 0 (NewMatch.setsJ1 d)) (default 0 (NewMatch.setsJ2 d))
           (NewMatch.ganadorId d).

(** Rows get consecutive auto-increment ids, in the order of [data]. *)
Fixpoint matchRows (next : Z) (data : list NewMatch.t) : list Match.t :=
  match data with
  | [] => []
  | d :: data' => matchOfData next d :: matchRows (next + 1) data'
  end.

(** [prisma.match.createMany({ data })] *)
Definition matchCreateMany (s : Store) (data : list NewMatch.t) : Store :=
  withMatches s (matches s ++ matchRows (nextMatchId s) data)
              (nextMatchId s + Z.of_nat (length data)).

(** [prisma.match.deleteMany({ where: { torneoId } })] *)
Definition matchDeleteMany (s : Store) (torneoId : Z) : Store :=
  withMatches s (List.filter (λ m, negb (Match.torneoId m =? torneoId)) (matches s))
              (nextMatchId s).

(** [prisma.match.update({ where: { id }, data })]: [id] is the primary key,
    the row updated is the one [findUnique] returns. *)
Fixpoint updateUnique (id : Z) (f : Match.t → Match.t) (rows : list Match.t)
  : list Match.t :=
  match rows with
  | [] => []
  | m :: rows' =>
      if Match.id m =? id then f m :: rows' else m :: updateUnique id f rows'
  end.

Definition matchUpdate (s : Store) (id : Z) (f : Match.t → Match.t) : Store :=
  withMatches s (updateUnique id f (matches s)) (nextMatchId s).

(** [prisma.player.update({ where: { id }, data: { puntos: { increment } } })]:
    Prisma throws when no row has that id, hence the [option]. *)
Definition playerIncrement (s : Store) (id : Z) (amount : Z) : option Store :=
  if existsb (λ p, Player.id p =? id) (players s)
  then Some (withPlayers s
               ((λ p, if Player.id p =? id
                      then Player.withPuntos p (Player.puntos p + amount) else p)
                  <$> players s))
  else None.

(** [puntos: { decrement: amount }] *)
Definition playerDecrement (s : Store) (id : Z) (amount : Z) : option Store :=
  playerIncrement s id (- amount).

Definition playerSetRanking (s : Store) (id : Z) (rank : Z) : Store :=
  withPlayers s
    ((λ p, if Player.id p =? id then Player.withRanking p rank else p) <$> players s).

(** [prisma.player.findMany({ where: { id: { in: playerIds } } })] *)
Definition playerFindManyIn (s : Store) (playerIds : list Z) : list Player.t :=
  List.filter (λ p, bool_decide (Player.id p ∈ playerIds)) (players s).

(** The cumulative points in the row of player [id], when there is one. *)
Definition puntosOf (s : Store) (id : Z) : option Z :=
  Player.puntos <$> List.find (λ p, Player.id p =? id) (players s).

(** ** Matches router *)

Module SetScore.
Record t := mk { player1Score : Z; player2Score : Z }.
End SetScore.

(** An HTTP reply: a 200 body, or a status code with the rejection made. *)
Inductive Rejection :=
  | TournamentNotFound | MatchNotFound
  | MatchAlreadyFinished | WinnerNotAPlayer | NoSets | ExtraSets
  | SetsExceedFormat | MatchNotCompleted | BothPlayersWon | WinnerMismatch
  | MatchNotPending
  | TournamentNotPending | TooFewPlayers | UnknownPlayers
  | HasMatches | NoWinner | InternalError.

Inductive Reply (A : Type) :=
  | Ok (body : A)
  | Fail (code : Z) (error : Rejection).
Arguments Ok {A} body.
Arguments Fail {A} code error.

(** [calculatePoints] *)
Definition calculatePoints (position : Z) : Z :=
  match position with
  | 1 => 100
  | 2 => 75
  | 3 => 50
  | 4 => 25
  | 5 => 10
  | 6 => 10
  | 7 => 5
  | 8 => 5
  | _ => 1
  end.

(** The [Map] of [calculateFinalPositions], in insertion order. *)
Definition mapGet (m : list (Z * Z)) (k : Z) : option Z :=
  snd <$> List.find (λ kv, fst kv =? k) m.

Fixpoint mapSet (m : list (Z * Z)) (k v : Z) : list (Z * Z) :=
  match m with
  | [] => [(k, v)]
  | (k', v') :: m' => if k' =? k then (k, v) :: m' else (k', v') :: mapSet m' k v
  end.

Module Position.
Record t := mk { playerId : Z; wins : Z }.
End Position.

(** [calculateFinalPositions] *)
Definition countWins (matches : list Match.t) : list (Z * Z) :=
  foldl (λ players m,
           match Match.ganadorId m with
           | Some g =>
               if truthy (Some g)
               then let currentWins := default 0 (mapGet players g) in
                    mapSet players g (currentWins + 1)
               else players
           | None => players
           end) [] matches.

Definition calculateFinalPositions (matches : list Match.t) : list Position.t :=
  sortBy (λ a b, Position.wins b - Position.wins a <=? 0)
         ((λ kv, Position.mk (fst kv) (snd kv)) <$> countWins matches).

(** [updateRankings]: players by [puntos] descending, then rank [i + 1].
    The order in which the database returns players with equal points is not
    fixed by the query; the table order is taken. *)
Definition updateRankings (s : Store) : Store :=
  let sorted := sortBy (λ a b, Player.puntos b <=? Player.puntos a) (players s) in
  foldl (λ s ip, playerSetRanking s (Player.id (snd ip)) (Z.of_nat (fst ip) + 1))
        s (imap pair sorted).

(** The loop [for (const result of tournamentResults) await
    prisma.player.update(...)]; [false] when an update threw. *)
Fixpoint awardAll (s : Store) (results : list TournamentResult.t) : Store * bool :=
  match results with
  | [] => (s, true)
  | r :: rest =>
      match playerIncrement s (TournamentResult.jugadorId r)
                            (TournamentResult.puntosGanados r) with
      | Some s' => awardAll s' rest
      | None => (s, false)
      end
  end.

(** How a run of [finalizeTournament] ended: it went through, it returned
    at the "ya está finalizado" guard, or an exception reached its [catch]
    (the tournament row is missing, or a player row to update is).  The
    schema not being among the sources, [createMany] is taken to insert the
    rows without a uniqueness check. *)
Inductive FinalizeOutcome := Completed | AlreadyFinalized | Caught.

(** [prisma.match.findMany({ where: { torneoId }, orderBy: [{ ronda: 'desc' },
    { id: 'asc' }] })] *)
Definition tournamentMatches (s : Store) (tournamentId : Z) : list Match.t :=
  sortBy (λ a b, (Match.ronda b <? Match.ronda a)
                 || ((Match.ronda a =? Match.ronda b)
                     && (Match.id a <=? Match.id b)))
         (List.filter (λ m, Match.torneoId m =? tournamentId) (matches s)).

(** The rows built by [positions.map((position, index) => ...)]. *)
Definition finalResults (s : Store) (tournamentId : Z) : list TournamentResult.t :=
  let positions := calculateFinalPositions (tournamentMatches s tournamentId) in
  imap (λ index position,
          TournamentResult.mk tournamentId (Position.playerId position)
            (Z.of_nat index + 1) (calculatePoints (Z.of_nat index + 1)))
       positions.

Definition finalizeTournamentRun (s : Store) (tournamentId winnerId : Z)
  : Store * FinalizeOutcome :=
  match tournamentFindUnique s tournamentId with
  | None => (s, Caught)
  | Some existingTournament =>
      if decide (Tournament.estado existingTournament = Finalizado)
      then (s, AlreadyFinalized)
      else
        let results := finalResults s tournamentId in
        let s1 := withTournamentResults s (tournamentResults s ++ results) in
        match awardAll s1 results with
        | (s2, false) => (s2, Caught)
        | (s2, true) =>
            let s3 := updateRankings s2 in
            (tournamentUpdateEstado s3 tournamentId Finalizado, Completed)
        end
  end.

Definition finalizeTournament (s : Store) (tournamentId winnerId : Z) : Store :=
  fst (finalizeTournamentRun s tournamentId winnerId).

(** Body of the loop [for (let i = 0; i < winners.length; i += 2)] of
    [generateNextMatch]. *)
Definition nextRoundPair (torneoId nextRound : Z) (fase : string)
    (winners : list Z) (i : nat) : list NewMatch.t :=
  match winners !! i, winners !! (i + 1)%nat with
  | Some w1, Some w2 =>
      [NewMatch.mk torneoId w1 (Some w2) nextRound fase None None None None]
  | Some w1, None =>
      [NewMatch.mk torneoId w1 None nextRound fase
                   (Some w1) (Some 1) (Some 0) (Some Finalizado)]
  | None, _ => []
  end.

(** [roundMatches]: the cohort of a match, [orderBy: { id: 'asc' }]. *)
Definition roundMatches (s : Store) (torneoId ronda : Z) (fase : string)
  : list Match.t :=
  sortBy (λ a b, Match.id a <=? Match.id b)
         (List.filter (λ m, (Match.torneoId m =? torneoId)
                            && (Match.ronda m =? ronda)
                            && String.eqb (Match.fase m) fase)
                      (matches s)).

Definition roundWinners (cohort : list Match.t) : list Z :=
  (λ m, default 0 (Match.ganadorId m))
    <$> List.filter (λ m, truthy (Match.ganadorId m)) cohort.

(** [generateNextMatch] *)
Definition generateNextMatch (s : Store) (completedMatch : Match.t) : Store :=
  let torneoId := Match.torneoId completedMatch in
  let ronda := Match.ronda completedMatch in
  let fase := Match.fase completedMatch in
  let cohort := roundMatches s torneoId ronda fase in
  let allCompleted :=
    forallb (λ m, bool_decide (Match.estado m = Finalizado)) cohort in
  if negb allCompleted then s
  else
    let winners := roundWinners cohort in
    if (length winners <=? 1)%nat
    then match winners with
         | [w] => finalizeTournament s torneoId w
         | _ => s
         end
    else
      let nextRound := ronda + 1 in
      let nextMatches :=
        flat_map (nextRoundPair torneoId nextRound fase winners)
                 (evenIndices (length winners)) in
      if (0 <? length nextMatches)%nat then matchCreateMany s nextMatches else s.

(** The counting loop of [PUT /:id/result]: [(setsJ1, setsJ2)]. *)
Definition countSets (sets : list SetScore.t) : Z * Z :=
  foldl (λ acc set,
           if SetScore.player2Score set <? SetScore.player1Score set
           then (fst acc + 1, snd acc)
           else if SetScore.player1Score set <? SetScore.player2Score set
                then (fst acc, snd acc + 1)
                else acc)
        (0, 0) sets.

(** [Math.ceil(maxSets / 2)] *)
Definition setsNeededOf (maxSets : Z) : Z := (maxSets + 1) / 2.

(** [setsToCreate] *)
Definition setsToCreate (id : Z) (m : Match.t) (sets : list SetScore.t)
  : list SetRow.t :=
  imap (λ index set,
          SetRow.mk id (Z.of_nat index + 1)
                    (SetScore.player1Score set) (SetScore.player2Score set)
                    (if SetScore.player2Score set <? SetScore.player1Score set
                     then Some (Match.jugador1Id m)
                     else Match.jugador2Id m))
       sets.

(** [prisma.set.deleteMany] followed by [prisma.set.createMany]. *)
Definition replaceSets (s : Store) (id : Z) (rows : list SetRow.t) : Store :=
  let kept := List.filter (λ r, negb (SetRow.partidoId r =? id)) (sets s) in
  withSets s (if (0 <? length rows)%nat then kept ++ rows else kept).

Definition recordResult (setsJ1 setsJ2 winnerId : Z) (status : Estado)
    (m : Match.t) : Match.t :=
  Match.mk (Match.id m) (Match.torneoId m) (Match.jugador1Id m) (Match.jugador2Id m)
           (Match.ronda m) (Match.fase m) status setsJ1 setsJ2 (Some winnerId).

(** [PUT /:id/result].  The body has passed express-validator: [sets] is an
    array, [winnerId] an integer and [status] one of the three states.  The
    validators look no further into [sets]; the embedding covers the bodies
    whose sets are objects with two integer scores, and says nothing of
    others.  An exception reaches the [catch] and is answered 500: reading
    [match.torneo.setsPorPartido] when the tournament row is missing, and
    reading [match.jugador2.nombre] for the "no coincide" message when the
    match has no second player. *)
Definition putResult (s : Store) (id : Z) (sets : list SetScore.t)
    (winnerId : Z) (status : Estado) : Store * Reply Match.t :=
  match matchFindUnique s id with
  | None => (s, Fail 404 MatchNotFound)
  | Some m =>
      if decide (Match.estado m = Finalizado)
      then (s, Fail 400 MatchAlreadyFinished)
      else if negb (winnerId =? Match.jugador1Id m)
              && negb (bool_decide (Some winnerId = Match.jugador2Id m))
      then (s, Fail 400 WinnerNotAPlayer)
      else if (length sets =? 0)%nat
      then (s, Fail 400 NoSets)
      else
        let setsJ1 := fst (countSets sets) in
        let setsJ2 := snd (countSets sets) in
        match tournamentFindUnique s (Match.torneoId m) with
        | None => (s, Fail 500 InternalError)
        | Some torneo =>
            let maxSets := Tournament.setsPorPartido torneo in
            let setsNeeded := setsNeededOf maxSets in
            let isCompleted := (setsNeeded <=? setsJ1) || (setsNeeded <=? setsJ2) in
            if isCompleted && (setsNeeded * 2 - 1 <? Z.of_nat (length sets))
            then (s, Fail 400 ExtraSets)
            else if maxSets <? setsJ1 + setsJ2
            then (s, Fail 400 SetsExceedFormat)
            else if negb isCompleted
            then (s, Fail 400 MatchNotCompleted)
            else if (setsNeeded <=? setsJ1) && (setsNeeded <=? setsJ2)
            then (s, Fail 400 BothPlayersWon)
            else
              let actualWinner :=
                if setsNeeded <=? setsJ1 then Some (Match.jugador1Id m)
                else Match.jugador2Id m in
              if negb (bool_decide (Some winnerId = actualWinner))
              then
                (* the message names the actual winner *)
                match actualWinner with
                | Some _ => (s, Fail 400 WinnerMismatch)
                | None => (s, Fail 500 InternalError)
                end
              else
                let updatedMatch := recordResult setsJ1 setsJ2 winnerId status m in
                let s1 := matchUpdate s id (recordResult setsJ1 setsJ2 winnerId status) in
                let s2 := replaceSets s1 id (setsToCreate id m sets) in
                let s3 := generateNextMatch s2 updatedMatch in
                (s3, Ok updatedMatch)
        end
  end.

Definition startMatch (m : Match.t) : Match.t :=
  Match.mk (Match.id m) (Match.torneoId m) (Match.jugador1Id m) (Match.jugador2Id m)
           (Match.ronda m) (Match.fase m) EnCurso
           (Match.setsJ1 m) (Match.setsJ2 m) (Match.ganadorId m).

(** [PUT /:id/start] *)
Definition putStart (s : Store) (id : Z) : Store * Reply Match.t :=
  match matchFindUnique s id with
  | None => (s, Fail 404 MatchNotFound)
  | Some m =>
      if decide (Match.estado m = Pendiente)
      then (matchUpdate s id startMatch, Ok (startMatch m))
      else (s, Fail 400 MatchNotPending)
  end.

(** The three 200 answers of the completion check. *)
Inductive CompletionBody :=
  | YaFinalizado
  | NoCompleto (pendingMatches totalMatches : nat)
  | FinalizadoAhora.

(** [POST /check-tournament-completion/:tournamentId] *)
Definition postCheckCompletion (s : Store) (tournamentId : Z)
  : Store * Reply CompletionBody :=
  match tournamentFindUnique s tournamentId with
  | None => (s, Fail 404 TournamentNotFound)
  | Some tournament =>
      if decide (Tournament.estado tournament = Finalizado)
      then (s, Ok YaFinalizado)
      else
        let ms := tournamentMatches s tournamentId in
        let allMatchesCompleted :=
          forallb (λ m, bool_decide (Match.estado m = Finalizado)) ms in
        if negb allMatchesCompleted
        then
          let pendingMatches :=
            List.filter (λ m, negb (bool_decide (Match.estado m = Finalizado))) ms in
          (s, Ok (NoCompleto (length pendingMatches) (length ms)))
        else
          match List.find (λ m, truthy (Match.ganadorId m)) ms with
          | None => (s, Fail 400 NoWinner)
          | Some finalMatch =>
              (finalizeTournament s tournamentId
                 (default 0 (Match.ganadorId finalMatch)),
               Ok FinalizadoAhora)
          end
  end.

(** ** Tournaments router *)

Module DeleteBody.
Record t := mk { pointsRemoved : nat; totalPointsRemoved : Z }.
End DeleteBody.

(** "Restar puntos de los jugadores": [false] when an update threw. *)
Fixpoint removeAll (s : Store) (results : list TournamentResult.t) : Store * bool :=
  match results with
  | [] => (s, true)
  | r :: rest =>
      match playerDecrement s (TournamentResult.jugadorId r)
                            (TournamentResult.puntosGanados r) with
      | Some s' => removeAll s' rest
      | None => (s, false)
      end
  end.

(** [DELETE /:id]; [force] is the truthiness of [req.query.force]. *)
Definition deleteTournament (s : Store) (id : Z) (force : bool)
  : Store * Reply DeleteBody.t :=
  match tournamentFindUnique s id with
  | None => (s, Fail 404 TournamentNotFound)
  | Some tournament =>
      let count := length (List.filter (λ m, Match.torneoId m =? id) (matches s)) in
      if (0 <? count)%nat && negb force
      then (s, Fail 400 HasMatches)
      else
        let results :=
          List.filter (λ r, TournamentResult.torneoId r =? id) (tournamentResults s) in
        let s1 := if force && (0 <? count)%nat then matchDeleteMany s id else s in
        let s2 :=
          withTournamentResults s1
            (List.filter (λ r, negb (TournamentResult.torneoId r =? id))
                         (tournamentResults s1)) in
        match removeAll s2 results with
        | (s3, false) => (s3, Fail 500 InternalError)
        | (s3, true) =>
            (tournamentDelete s3 id,
             Ok (DeleteBody.mk (length results)
                   (foldl (λ sum r, sum + TournamentResult.puntosGanados r) 0 results)))
        end
  end.

Module BracketBody.
Record t := mk { matchesCreated : nat }.
End BracketBody.

(** [POST /:id/generate-bracket].  [rnd] and [shuf] stand for the draws of
    [Math.random] made by the generators. *)
Definition postGenerateBracket (rnd : nat → nat)
    (shuf : list Player.t → list Player.t)
    (s : Store) (id : Z) (playerIds : list Z) : Store * Reply BracketBody.t :=
  match tournamentFindUnique s id with
  | None => (s, Fail 404 TournamentNotFound)
  | Some tournament =>
      if negb (bool_decide (Tournament.estado tournament = Pendiente))
      then (s, Fail 400 TournamentNotPending)
      else
        let found := playerFindManyIn s playerIds in
        if (length found <? 2)%nat
        then (s, Fail 400 TooFewPlayers)
        else
          let '(newMatches, s1) :=
            if String.eqb (Tournament.tipo tournament) "Eliminación directa"
            then (generateEliminationBracket rnd found id, s)
            else if String.eqb (Tournament.tipo tournament) "Grupos + Eliminación"
            then
              let numGroups := ((length found + 3) / 4)%nat in
              ([], withGroups s (groups s ++ generateGroups shuf found numGroups id))
            else if String.eqb (Tournament.tipo tournament) "Round Robin"
            then (generateRoundRobinBracket found id, s)
            else ([], s) in
          let s2 :=
            if (0 <? length newMatches)%nat then matchCreateMany s1 newMatches else s1 in
          let s3 := tournamentUpdateEstado s2 id EnCurso in
          (s3, Ok (BracketBody.mk (length newMatches)))
  end.

Module SeededPlayer.
Record t := mk { position : Z; playerId : Z }.
End SeededPlayer.

(** [positions[sp.position - 1] = players.find(p => p.id === sp.playerId)];
    a write outside [0, totalSlots) is never read back by the pairing loop. *)
Definition placeSeed (found : list Player.t) (positions : list (option Player.t))
    (sp : SeededPlayer.t) : list (option Player.t) :=
  let idx := SeededPlayer.position sp - 1 in
  if idx <? 0 then positions
  else <[Z.to_nat idx :=
           List.find (λ p, Player.id p =? SeededPlayer.playerId sp) found]> positions.

(** Body of the pairing loop of the manual draw: a lone player is only
    logged ("No creamos un partido"). *)
Definition manualPair (tournamentId : Z) (positions : list (option Player.t))
    (i : nat) : list NewMatch.t :=
  match slot positions i, slot positions (i + 1) with
  | Some p1, Some p2 => [realMatch tournamentId p1 p2 1]
  | _, _ => []
  end.

(** [POST /:id/manual-seeding] *)
Definition postManualSeeding (s : Store) (id : Z)
    (seededPlayers : list SeededPlayer.t) : Store * Reply BracketBody.t :=
  match tournamentFindUnique s id with
  | None => (s, Fail 404 TournamentNotFound)
  | Some tournament =>
      if negb (bool_decide (Tournament.estado tournament = Pendiente))
      then (s, Fail 400 TournamentNotPending)
      else
        let playerIds := SeededPlayer.playerId <$> seededPlayers in
        let found := playerFindManyIn s playerIds in
        if negb (length found =? length seededPlayers)%nat
        then (s, Fail 400 UnknownPlayers)
        else
          let newMatches :=
            if String.eqb (Tournament.tipo tournament) "Round Robin"
            then generateRoundRobinBracket found id
            else
              let slots := totalSlots (length seededPlayers) in
              let positions :=
                foldl (placeSeed found) (replicate slots None) seededPlayers in
              flat_map (manualPair id positions) (evenIndices slots) in
          let s1 :=
            if (0 <? length newMatches)%nat then matchCreateMany s newMatches else s in
          let s2 := tournamentUpdateEstado s1 id EnCurso in
          (s2, Ok (BracketBody.mk (length newMatches)))
  end.

(** ** Reachable stores

    One step is one request served: a request to the engine, with the
    progression and finalization it triggers, or a request to another router
    (tournament creation and edition, players, authentication), none of which
    writes a match, a set or a result row. *)
Inductive step : Store → Store → Prop :=
  | step_generate rnd shuf s id playerIds :
      step s (fst (postGenerateBracket rnd shuf s id playerIds))
  | step_manual s id seededPlayers :
      step s (fst (postManualSeeding s id seededPlayers))
  | step_start s id :
      step s (fst (putStart s id))
  | step_result s id sets winnerId status :
      step s (fst (putResult s id sets winnerId status))
  | step_check s id :
      step s (fst (postCheckCompletion s id))
  | step_delete s id force :
      step s (fst (deleteTournament s id force))
  | step_registry s s' :
      matches s' = matches s → sets s' = sets s →
      tournamentResults s' = tournamentResults s →
      nextMatchId s' = nextMatchId s →
      step s s'.

(** Stores reached from one without matches. *)
Inductive reachable : Store → Prop :=
  | reachable_init s : matches s = [] → reachable s
  | reachable_step s s' : reachable s → step s s' → reachable s'.

(** ** Notions used by the statements *)






(** Sample data for the worked cases. *)
Definition samplePlayer (i : Z) : Player.t := Player.mk i "" 0 0.

Definition fivePlayers : list Player.t := samplePlayer <$> [1; 2; 3; 4; 5].

(** A run of the Fisher-Yates draws on 8 slots that leaves the five players
    and three BYEs as [1, BYE, 2, BYE, 3, BYE, 4, 5]. *)
Definition spreadDraw (i : nat) : nat :=
  match i with
  | 7 => 4
  | 6 => 3
  | 4 => 2
  | 2 => 1
  | _ => i
  end%nat.

(** A run of the draws on 4 slots that leaves three players and the BYE as
    [1, 2, BYE, 3]. *)
Definition lateByeDraw (i : nat) : nat :=
  match i with
  | 3 => 2
  | _ => i
  end%nat.

(** The circle method in closed form: the index (in the array as it was
    before round 1) of the entry that stands at position [p] after [r]
    rotations of an array of [m + 1] entries.  Position 0 is fixed; the
    other [m] positions turn by one place per round. *)
Definition circlePos (m r p : nat) : nat :=
  if (p =? 0)%nat then 0%nat
  else if (p + r <=? m)%nat then (p + r)%nat
       else (p + r - m)%nat.

(** The match [m] opposes the players with ids [x] and [y], on either side. *)
Definition opposes (x y : Z) (m : NewMatch.t) : bool :=
  bool_decide ((NewMatch.jugador1Id m = x ∧ NewMatch.jugador2Id m = Some y)
               ∨ (NewMatch.jugador1Id m = y ∧ NewMatch.jugador2Id m = Some x)).

(** Number of rounds the round robin plays with [n] players. *)
Definition roundRobinRounds (n : nat) : nat :=
  if Nat.even n then (n - 1)%nat else n.

(** What round [r + 1] pushes for its pair [i], read off the array as it was
    before round 1. *)
Definition circleCell (tid : Z) (players : list Player.t) (m r i : nat)
  : list NewMatch.t :=
  match players !! circlePos m r i, players !! circlePos m r (m - i) with
  | Some p1, Some p2 => [realMatch tid p1 p2 (Z.of_nat (S r))]
  | _, _ => []
  end.

(** With an odd number [m] of players, the pair of round [r + 1] in which
    the phantom sits. *)
Definition phantomPair (m r : nat) : nat :=
  let p := if (r =? 0)%nat then m else (m - r)%nat in
  if (p <=? m / 2)%nat then p else (m - p)%nat.


(** A tournament whose first round is over, with winners 10, 30 and 50. *)
Definition roundOneOver : Store :=
  mkStore (samplePlayer <$> [10; 20; 30; 40; 50; 60])
          [Tournament.mk 1 "Eliminación directa" EnCurso 3]
          [Match.mk 1 1 10 (Some 20) 1 "Principal" Finalizado 2 0 (Some 10);
           Match.mk 2 1 30 (Some 40) 1 "Principal" Finalizado 2 1 (Some 30);
           Match.mk 3 1 50 (Some 60) 1 "Principal" Finalizado 0 2 (Some 50)]
          [] [] [] 4.

(** Points that the rows [rows] hold for player [p]. *)
Definition awardedTo (p : Z) (rows : list TournamentResult.t) : Z :=
  foldr (λ r acc, if TournamentResult.jugadorId r =? p
                  then TournamentResult.puntosGanados r + acc else acc) 0 rows.

(** Wins of player [p] over the matches [ms]. *)
Definition winsOf (ms : list Match.t) (p : Z) : Z :=
  Z.of_nat (length (List.filter (λ m, bool_decide (Match.ganadorId m = Some p)) ms)).

(** The rows of tournament [id]. *)
Definition resultsOf (s : Store) (id : Z) : list TournamentResult.t :=
  List.filter (λ r, TournamentResult.torneoId r =? id) (tournamentResults s).

(** Two stores that differ in their player table at most. *)
Definition sameButPlayers (s s' : Store) : Prop :=
  tournaments s' = tournaments s ∧ matches s' = matches s ∧ sets s' = sets s
  ∧ groups s' = groups s ∧ tournamentResults s' = tournamentResults s
  ∧ nextMatchId s' = nextMatchId s.

(** Wins that [calculateFinalPositions] counts for [p]: a falsy winner id
    is skipped. *)
Definition countedWins (ms : list Match.t) (p : Z) : Z :=
  if decide (p = 0) then 0 else winsOf ms p.

(** A pending double-elimination tournament and two registered players. *)
Definition doubleEliminationPending : Store :=
  mkStore (samplePlayer <$> [10; 20])
          [Tournament.mk 1 "Doble eliminación" Pendiente 5]
          [] [] [] [] 1.

(** A best-of-three final between players 10 and 20, still to be played. *)
Definition finalToPlay : Store :=
  mkStore (samplePlayer <$> [10; 20])
          [Tournament.mk 1 "Eliminación directa" EnCurso 3]
          [Match.mk 1 1 10 (Some 20) 1 "Principal" Pendiente 0 0 None]
          [] [] [] 2.

(** 11-5, 7-7, 11-9: the second set is tied. *)
Definition tiedSubmission : list SetScore.t :=
  [SetScore.mk 11 5; SetScore.mk 7 7; SetScore.mk 11 9].

(** Two registered players and a pending elimination tournament, before
    any bracket exists. *)
Definition beforeBracket : Store :=
  mkStore (samplePlayer <$> [10; 20])
          [Tournament.mk 1 "Eliminación directa" Pendiente 3]
          [] [] [] [] 1.

(** The winner of a match, when there is one, is one of its players, and a
    Finished match has a winner. *)
Definition matchSound (m : Match.t) : Prop :=
  (∀ w, Match.ganadorId m = Some w →
        w = Match.jugador1Id m ∨ Match.jugador2Id m = Some w)
  ∧ (Match.estado m = Finalizado → Match.ganadorId m ≠ None).

(** The same for a match about to be created. *)
Definition dataSound (d : NewMatch.t) : Prop :=
  (∀ w, NewMatch.ganadorId d = Some w →
        w = NewMatch.jugador1Id d ∨ NewMatch.jugador2Id d = Some w)
  ∧ (NewMatch.estado d = Some Finalizado → NewMatch.ganadorId d ≠ None).

(** The bracket of [beforeBracket] generated (one match, 10 against 20),
    then a 11-5, 11-7 result for player 10 submitted with state [status]. *)
Definition afterFirstResult (status : Estado) : Store :=
  let s1 := fst (postGenerateBracket (λ i, i) (λ l, l) beforeBracket 1 [10; 20]) in
  fst (putResult s1 1 [SetScore.mk 11 5; SetScore.mk 11 7] 10 status).

(** ** Access control (middleware/auth.js) *)

Module User.
Record t := mk { id : Z; nombre : string; email : string; role : string }.
End User.

(** What a middleware does with a request: hand it on, or answer with a
    status code. *)
Inductive Verdict := Next | Deny (code : Z).

(** [requireRole]; [user] is [req.user], absent when no token was
    authenticated. *)
Definition requireRole (roles : list string) (user : option User.t) : Verdict :=
  match user with
  | None => Deny 401
  | Some u => if bool_decide (User.role u ∈ roles) then Next else Deny 403
  end.

Definition requireAdmin : option User.t → Verdict := requireRole ["Admin"].
Definition requireArbitro : option User.t → Verdict :=
  requireRole ["Admin"; "Árbitro"].
Definition requireJugador : option User.t → Verdict :=
  requireRole ["Admin"; "Árbitro"; "Jugador"].

(** ** Further notions used by the statements *)

(** The player ids seated by a list of generated matches, in order. *)
Definition seatedIds (ms : list NewMatch.t) : list Z :=
  flat_map (λ m, NewMatch.jugador1Id m
                 :: match NewMatch.jugador2Id m with
                    | Some j => [j]
                    | None => []
                    end) ms.

(** The ids of the players that stand in a slot list, in order. *)
Definition slotIds (arr : list (option Player.t)) : list Z :=
  flat_map (λ x, match x with
                 | Some p => [Player.id p]
                 | None => []
                 end) arr.

(** The player with id [x] plays in the match [m]. *)
Definition involves (x : Z) (m : NewMatch.t) : bool :=
  bool_decide (NewMatch.jugador1Id m = x ∨ NewMatch.jugador2Id m = Some x).

(** The points of all players together. *)
Definition totalPuntos (s : Store) : Z :=
  foldr (λ p acc, Player.puntos p + acc) 0 (players s).

(** The points held by a list of result rows. *)
Definition sumAwards (rows : list TournamentResult.t) : Z :=
  foldr (λ r acc, TournamentResult.puntosGanados r + acc) 0 rows.


(** A generated match between two players, without state, counts or winner. *)
Definition isOpenPairing (tournamentId : Z) (d : NewMatch.t) : Prop :=
  NewMatch.torneoId d = tournamentId
  ∧ is_Some (NewMatch.jugador2Id d)
  ∧ 1 ≤ NewMatch.ronda d
  ∧ NewMatch.estado d = None ∧ NewMatch.ganadorId d = None
  ∧ NewMatch.setsJ1 d = None ∧ NewMatch.setsJ2 d = None.

(** A pending tournament of type 'Grupos + Eliminación' and six players. *)
Definition groupsPending : Store :=
  mkStore (samplePlayer <$> [1; 2; 3; 4; 5; 6])
          [Tournament.mk 1 "Grupos + Eliminación" Pendiente 5]
          [] [] [] [] 1.

(** What the ranking loop over [l] makes of the row [p]. *)
Definition rankedAs (l : list (nat * Player.t)) (p : Player.t) : Player.t :=
  foldl (λ p ip, if Player.id p =? Player.id ip.2
                 then Player.withRanking p (Z.of_nat ip.1 + 1) else p) p l.

(** A player row with its rank blanked. *)
Definition unranked (p : Player.t) : Player.t := Player.withRanking p 0.

(** * Elimination bracket *)

Section Shuffle.
Context {A : Type}.
Implicit Types arr : list (option A).

Lemma slot_lookup arr i x : arr !! i = Some x → slot arr i = x.
Proof. unfold slot. intros ->. by destruct x. Qed.

Lemma delete_insert_same (l : list (option A)) i x :
  delete i (<[i:=x]> l) = delete i l.
Proof.
  revert i. induction l as [|y l IH]; intros [|i]; simpl; try done.
  by rewrite IH.
Qed.

Lemma insert_Permutation_delete (l : list (option A)) i x :
  (i < length l)%nat → <[i:=x]> l ≡ₚ x :: delete i l.
Proof.
  intros Hi. rewrite <- (delete_insert_same l i x).
  apply delete_Permutation. by apply list_lookup_insert_eq.
Qed.

Lemma swap_length arr i j : length (swap arr i j) = length arr.
Proof. unfold swap. by rewrite !length_insert. Qed.

Lemma swap_Permutation arr i j :
  (i < length arr)%nat → (j < length arr)%nat → swap arr i j ≡ₚ arr.
Proof.
  intros Hi Hj. unfold swap.
  destruct (lookup_lt_is_Some_2 arr i Hi) as [xi Hxi].
  destruct (lookup_lt_is_Some_2 arr j Hj) as [xj Hxj].
  rewrite (slot_lookup _ _ _ Hxi), (slot_lookup _ _ _ Hxj).
  destruct (decide (i = j)) as [->|Hne].
  - rewrite list_insert_insert_eq. rewrite list_insert_id; [done|congruence].
  - set (l' := <[i:=xj]> arr).
    assert (Hl'j : l' !! j = Some xj)
      by (unfold l'; by rewrite list_lookup_insert_ne).
    assert (H1 : <[j:=xi]> l' ≡ₚ xi :: delete j l').
    { apply insert_Permutation_delete. unfold l'. by rewrite length_insert. }
    assert (H2 : l' ≡ₚ xj :: delete j l') by by apply delete_Permutation.
    assert (H3 : l' ≡ₚ xj :: delete i arr)
      by (unfold l'; by apply insert_Permutation_delete).
    assert (H4 : arr ≡ₚ xi :: delete i arr) by by apply delete_Permutation.
    rewrite H2 in H3. apply Permutation_cons_inv in H3.
    rewrite H1, H3. by symmetry.
Qed.

Lemma shuffleFrom_Permutation rnd i arr :
  (∀ k, rnd k ≤ k)%nat → (i < length arr)%nat →
  shuffleFrom rnd i arr ≡ₚ arr.
Proof.
  intros Hrnd. revert arr. induction i as [|i IH]; intros arr Hi; simpl.
  - done.
  - rewrite IH by (rewrite swap_length; lia).
    apply swap_Permutation; [done|]. specialize (Hrnd (S i)). lia.
Qed.

Lemma shuffle_Permutation rnd arr :
  (∀ k, rnd k ≤ k)%nat → shuffle rnd arr ≡ₚ arr.
Proof.
  intros Hrnd. unfold shuffle. destruct arr as [|x arr]; [done|].
  apply shuffleFrom_Permutation; [done|]. simpl. lia.
Qed.

End Shuffle.

Lemma totalSlots_ge n : (2 ≤ n → n ≤ totalSlots n)%nat.
Proof.
  intros Hn. unfold totalSlots, numRounds.
  destruct (Nat.log2_up_spec n) as [_ H]; lia.
Qed.









Lemma evenIndices_SS n :
  evenIndices (S (S n)) = 0%nat :: ((λ i, i + 2)%nat <$> evenIndices n).
Proof.
  unfold evenIndices.
  change (Nat.div2 (S (S (S n)))) with (S (Nat.div2 (S n))).
  simpl seq. rewrite <- fmap_S_seq. simpl. f_equal.
  rewrite <- !list_fmap_compose. apply list_fmap_ext. intros _ x _. simpl. lia.
Qed.

Lemma evenIndices_length n : length (evenIndices n) = Nat.div2 (S n).
Proof. unfold evenIndices. by rewrite length_fmap, length_seq. Qed.

Lemma slot_SS {A} (a b : option A) l i : slot (a :: b :: l) (i + 2) = slot l i.
Proof. replace (i + 2)%nat with (S (S i)) by lia. done. Qed.

Lemma list_pair_ind {A} (P : list A → Prop) :
  P [] → (∀ a, P [a]) → (∀ a b l, P l → P (a :: b :: l)) → ∀ l, P l.
Proof.
  intros H0 H1 H2 l.
  cut (P l ∧ ∀ a, P (a :: l)); [tauto|].
  induction l as [|x l [IHl IHxl]]; split; auto.
Qed.

Lemma firstRound_SS tid a b arr n :
  flat_map (firstRoundPair tid (a :: b :: arr)) (evenIndices (S (S n)))
  = firstRoundPair tid (a :: b :: arr) 0
    ++ flat_map (firstRoundPair tid arr) (evenIndices n).
Proof.
  rewrite evenIndices_SS. simpl. f_equal.
  induction (evenIndices n) as [|i l IH]; simpl; [done|].
  rewrite <- IH. f_equal. unfold firstRoundPair.
  replace (i + 2 + 1)%nat with (i + 1 + 2)%nat by lia. by rewrite !slot_SS.
Qed.












Lemma spreadDraw_bounded i : (spreadDraw i ≤ i)%nat.
Proof. do 8 (destruct i as [|i]; [simpl; lia|]). simpl. lia. Qed.



(** A pair whose first slot is the BYE pushes nothing: with the slots
    [1, 2, BYE, 3] the only match is 1 against 2 and player 3 is seated in
    no match of round 1. *)
Lemma elimination_bracket_bye_first :
  shuffle lateByeDraw (padByes (Some <$> (samplePlayer <$> [1; 2; 3])) 4)
  = [Some (samplePlayer 1); Some (samplePlayer 2); None; Some (samplePlayer 3)]
  ∧ generateEliminationBracket lateByeDraw (samplePlayer <$> [1; 2; 3]) 1
    = [realMatch 1 (samplePlayer 1) (samplePlayer 2) 1].
Proof. split; by vm_compute. Qed.

(** * Round robin *)

Section Rotation.
Context {A : Type}.
Implicit Types arr : list (option A).

Lemma slot_ge arr p : (length arr ≤ p)%nat → slot arr p = None.
Proof. intros H. unfold slot. by rewrite lookup_ge_None_2. Qed.

Lemma slot_insert arr i x p :
  slot (<[i:=x]> arr) p
  = if decide (i = p ∧ (i < length arr)%nat) then x else slot arr p.
Proof.
  case_decide as H.
  - destruct H as [-> H]. apply slot_lookup. by apply list_lookup_insert_eq.
  - destruct (decide (i = p)) as [->|Hne].
    + rewrite list_insert_ge by lia. done.
    + unfold slot. by rewrite list_lookup_insert_ne.
Qed.

(** The shifting loop after its first [k] iterations. *)
Lemma shift_loop arr k :
  (k + 2 ≤ length arr)%nat →
  let acc := foldl (λ acc i, <[i := slot acc (i + 1)]> acc) arr (seq 1 k) in
  length acc = length arr
  ∧ ∀ p, slot acc p = if decide (1 ≤ p ≤ k)%nat then slot arr (p + 1) else slot arr p.
Proof.
  induction k as [|k IH]; intros Hk; cbv zeta.
  - simpl. split; [done|]. intros p. case_decide; [lia|done].
  - rewrite seq_S, foldl_app. cbn [foldl].
    destruct IH as [IHlen IHslot]; [lia|].
    set (acc := foldl _ arr (seq 1 k)) in *.
    split; [by rewrite length_insert|].
    intros p. rewrite slot_insert, !IHslot, IHlen.
    repeat case_decide; try lia; try done.
    f_equal. lia.
Qed.

Lemma rotate_length arr : length (rotate arr) = length arr.
Proof.
  unfold rotate. rewrite length_insert.
  destruct (decide (2 ≤ length arr)%nat) as [H|H].
  - apply (shift_loop arr (length arr - 2)). lia.
  - replace (length arr - 2)%nat with 0%nat by lia. done.
Qed.

Lemma rotate_slot arr m p :
  length arr = S m → (1 ≤ m)%nat → (p ≤ m)%nat →
  slot (rotate arr) p
  = slot arr (if decide (p = 0)%nat then 0
              else if decide (p < m)%nat then p + 1 else 1)%nat.
Proof.
  intros Hlen Hm Hp. unfold rotate.
  destruct (shift_loop arr (length arr - 2)) as [Hl Hs]; [lia|].
  cbv zeta in Hl, Hs. rewrite slot_insert, Hl, Hs.
  repeat case_decide; try lia; try done; try (f_equal; lia).
Qed.

Lemma circlePos_step m r p :
  (S r ≤ m)%nat → (p ≤ m)%nat →
  circlePos m r (if decide (p = 0)%nat then 0
                 else if decide (p < m)%nat then p + 1 else 1)%nat
  = circlePos m (S r) p.
Proof.
  intros Hr Hp. unfold circlePos.
  repeat case_decide;
    repeat match goal with
           | |- context [(?a =? ?b)%nat] => destruct (Nat.eqb_spec a b)
           | |- context [(?a <=? ?b)%nat] => destruct (Nat.leb_spec a b)
           end; lia.
Qed.

Lemma iter_rotate_length arr r : length (Nat.iter r rotate arr) = length arr.
Proof.
  induction r as [|r IH]; [done|]. by rewrite Nat.iter_succ, rotate_length.
Qed.

Lemma iter_rotate_slot arr m r p :
  length arr = S m → (r ≤ m)%nat → (p ≤ m)%nat →
  slot (Nat.iter r rotate arr) p = slot arr (circlePos m r p).
Proof.
  intros Hlen. revert p. induction r as [|r IH]; intros p Hr Hp.
  - simpl. unfold circlePos.
    destruct (Nat.eqb_spec p 0); [by subst|].
    destruct (Nat.leb_spec (p + 0) m); [|lia]. by rewrite Nat.add_0_r.
  - rewrite Nat.iter_succ. rewrite (rotate_slot _ m); [|by rewrite iter_rotate_length|lia|done].
    rewrite IH; [|lia|repeat case_decide; lia].
    by rewrite circlePos_step.
Qed.
End Rotation.

Section FlatMap.
Context {A B : Type}.
Implicit Types (f g : A → list B) (l : list A).

Lemma flat_map_seq_shift (f : nat → list B) a n :
  flat_map f (seq (S a) n) = flat_map (λ k, f (S k)) (seq a n).
Proof.
  revert a. induction n as [|n IH]; intros a; simpl; [done|]. by rewrite IH.
Qed.

Lemma flat_map_ext_elem f g l :
  (∀ x, x ∈ l → f x = g x) → flat_map f l = flat_map g l.
Proof.
  induction l as [|x l IH]; intros H; simpl; [done|].
  rewrite H by left. rewrite IH; [done|]. intros y Hy. apply H. by right.
Qed.

Lemma filter_flat_map (P : B → bool) f l :
  List.filter P (flat_map f l) = flat_map (λ x, List.filter P (f x)) l.
Proof.
  induction l as [|x l IH]; simpl; [done|]. by rewrite List.filter_app, IH.
Qed.

Lemma flat_map_nil f l : (∀ x, x ∈ l → f x = []) → flat_map f l = [].
Proof.
  induction l as [|x l IH]; intros H; simpl; [done|].
  rewrite H by left. apply IH. intros y Hy. apply H. by right.
Qed.

Lemma flat_map_length_const f l c :
  (∀ x, x ∈ l → length (f x) = c) → length (flat_map f l) = (length l * c)%nat.
Proof.
  induction l as [|x l IH]; intros H; simpl; [done|].
  rewrite length_app, H by left. rewrite IH; [done|].
  intros y Hy. apply H. by right.
Qed.

Lemma flat_map_only f l x0 :
  NoDup l → x0 ∈ l → (∀ x, x ∈ l → x ≠ x0 → f x = []) →
  flat_map f l = f x0.
Proof.
  induction l as [|y l IH]; intros Hnd Hin Hf; [by apply elem_of_nil in Hin|].
  apply NoDup_cons in Hnd as [Hy Hnd]. simpl.
  apply elem_of_cons in Hin as [->|Hin].
  - rewrite flat_map_nil; [by rewrite app_nil_r|].
    intros x Hx. apply Hf; [by right|]. by intros ->.
  - rewrite Hf; [|by left|by intros ->]. simpl. apply IH; [done..|].
    intros x Hx. apply Hf. by right.
Qed.

Lemma flat_map_length_but_one f l x0 :
  NoDup l → x0 ∈ l → f x0 = [] →
  (∀ x, x ∈ l → x ≠ x0 → length (f x) = 1%nat) →
  length (flat_map f l) = (length l - 1)%nat.
Proof.
  induction l as [|y l IH]; intros Hnd Hin H0 Hf; [by apply elem_of_nil in Hin|].
  apply NoDup_cons in Hnd as [Hy Hnd]. simpl. rewrite length_app.
  apply elem_of_cons in Hin as [->|Hin].
  - rewrite H0. simpl. rewrite (flat_map_length_const _ _ 1); [lia|].
    intros x Hx. apply Hf; [by right|]. by intros ->.
  - rewrite Hf; [|by left|by intros ->]. rewrite IH; [|done..|].
    + destruct l; [by apply elem_of_nil in Hin|]. simpl. lia.
    + intros x Hx. apply Hf. by right.
Qed.
End FlatMap.

Ltac circle_cases :=
  unfold circlePos, phantomPair in *;
  repeat match goal with
         | |- context [(?a =? ?b)%nat] => destruct (Nat.eqb_spec a b)
         | |- context [(?a <=? ?b)%nat] => destruct (Nat.leb_spec a b)
         | H : context [(?a =? ?b)%nat] |- _ => destruct (Nat.eqb_spec a b)
         | H : context [(?a <=? ?b)%nat] |- _ => destruct (Nat.leb_spec a b)
         end.

(** Two pairs of the schedule that hold the same two entries are the same
    pair of the same round. *)
Lemma circle_unique h r i r' i' :
  let m := (2 * h + 1)%nat in
  (r < m → r' < m → i ≤ h → i' ≤ h →
   (circlePos m r i = circlePos m r' i'
    ∧ circlePos m r (m - i) = circlePos m r' (m - i'))
   ∨ (circlePos m r i = circlePos m r' (m - i')
      ∧ circlePos m r (m - i) = circlePos m r' i') →
   r = r' ∧ i = i')%nat.
Proof. intros m Hr Hr' Hi Hi' H. subst m. circle_cases; lia. Qed.

(** Every two entries meet in some pair of some round. *)
Lemma circle_exists h a b :
  let m := (2 * h + 1)%nat in
  (a < b → b ≤ m →
   ∃ r i, r < m ∧ i ≤ h ∧
     ((circlePos m r i = a ∧ circlePos m r (m - i) = b)
      ∨ (circlePos m r i = b ∧ circlePos m r (m - i) = a)))%nat.
Proof.
  intros m Hab Hb. subst m.
  destruct (decide (a = 0)%nat) as [->|Ha].
  - destruct (decide (b = 2 * h + 1)%nat) as [->|Hbm].
    + exists 0%nat, 0%nat. circle_cases; lia.
    + exists b, 0%nat. circle_cases; lia.
  - destruct (Nat.Even_or_Odd (b - a)) as [[e He]|[e He]].
    + exists (a + e)%nat, e. circle_cases; lia.
    + exists (if decide (h - e ≤ a)%nat
              then a - (h - e) else a + (2 * h + 1) - (h - e))%nat, (h - e)%nat.
      case_decide; circle_cases; lia.
Qed.

Lemma circlePos_bound h r p :
  let m := (2 * h + 1)%nat in (r < m → p ≤ m → circlePos m r p ≤ m)%nat.
Proof. intros m Hr Hp. subst m. circle_cases; lia. Qed.

Lemma circle_pair_distinct h r i :
  let m := (2 * h + 1)%nat in
  (r < m → i ≤ h → circlePos m r i ≠ circlePos m r (m - i))%nat.
Proof. intros m Hr Hi. subst m. circle_cases; lia. Qed.

(** In a round, the last entry (the phantom when the field is odd) sits in
    exactly one pair. *)
Lemma phantomPair_spec h r i :
  let m := (2 * h + 1)%nat in
  (r < m → i ≤ h →
   phantomPair m r ≤ h
   ∧ ((circlePos m r i = m ∨ circlePos m r (m - i) = m) ↔ i = phantomPair m r))%nat.
Proof.
  intros m Hr Hi. subst m.
  assert ((2 * h + 1) / 2 = h)%nat as Hdiv.
  { replace (2 * h + 1)%nat with (1 + h * 2)%nat by lia.
    rewrite Nat.div_add by lia. done. }
  unfold phantomPair. rewrite Hdiv. circle_cases; lia.
Qed.

Lemma roundRobinLoop_rounds tid todo round arr :
  roundRobinLoop tid todo round arr
  = flat_map (λ k, flat_map (roundRobinPair tid (round + k) (Nat.iter k rotate arr))
                            (seq 0 (Nat.div2 (S (length arr)))))
             (seq 0 todo).
Proof.
  revert round arr. induction todo as [|todo IH]; intros round arr; [done|].
  cbn [roundRobinLoop seq flat_map]. rewrite Nat.add_0_r. f_equal.
  rewrite IH, flat_map_seq_shift, rotate_length.
  apply flat_map_ext. intros k.
  by rewrite Nat.iter_succ_r, Nat.add_succ_r.
Qed.

Lemma playersWithBye_length players :
  (1 ≤ length players)%nat →
  length (playersWithBye players) = S (2 * ((length players - 1) / 2) + 1).
Proof.
  intros Hn. unfold playersWithBye.
  destruct (Nat.eqb_spec (length players mod 2) 0) as [H|H];
    rewrite ?length_app, length_fmap; cbn [length]; lia.
Qed.

Lemma playersWithBye_slot players k :
  slot (playersWithBye players) k = players !! k.
Proof.
  unfold playersWithBye, slot.
  destruct (length players mod 2 =? 0)%nat.
  - rewrite list_lookup_fmap. by destruct (players !! k).
  - destruct (decide (k < length players)%nat) as [Hk|Hk].
    + rewrite lookup_app_l by by rewrite length_fmap.
      rewrite list_lookup_fmap. by destruct (players !! k).
    + rewrite (lookup_ge_None_2 players) by lia.
      rewrite lookup_app_r by (rewrite length_fmap; lia).
      rewrite length_fmap. by destruct (k - length players)%nat as [|[|?]].
Qed.

(** The schedule, round by round and pair by pair, in closed form. *)
Lemma generateRoundRobinBracket_circle players tid :
  (1 ≤ length players)%nat →
  let h := ((length players - 1) / 2)%nat in
  let m := (2 * h + 1)%nat in
  generateRoundRobinBracket players tid
  = flat_map (λ r, flat_map (circleCell tid players m r) (seq 0 (S h))) (seq 0 m).
Proof.
  intros Hn h m. unfold generateRoundRobinBracket.
  pose proof (playersWithBye_length players Hn) as Hlen. fold h m in Hlen.
  rewrite roundRobinLoop_rounds, Hlen.
  replace (S m - 1)%nat with m by lia.
  replace (Nat.div2 (S (S m))) with (S h).
  2:{ rewrite Nat.div2_div. unfold m. lia. }
  apply flat_map_ext_elem. intros r Hr. apply elem_of_seq in Hr.
  apply flat_map_ext_elem. intros i Hi. apply elem_of_seq in Hi.
  unfold roundRobinPair, circleCell.
  rewrite iter_rotate_length, Hlen.
  rewrite !(iter_rotate_slot _ m) by lia.
  rewrite !playersWithBye_slot.
  by replace (S m - 1 - i)%nat with (m - i)%nat by lia.
Qed.

Section RoundRobinCounts.
Variables (tid : Z) (players : list Player.t).
Let n := length players.
Let h := ((n - 1) / 2)%nat.
Let m := (2 * h + 1)%nat.
Hypothesis Hn : (2 ≤ n)%nat.

Lemma field_parity : n = m ∨ n = S m.
Proof. unfold m, h. lia. Qed.

Lemma circleCell_cases r i :
  circleCell tid players m r i = []
  ∨ ∃ p1 p2, players !! circlePos m r i = Some p1
             ∧ players !! circlePos m r (m - i) = Some p2
             ∧ circleCell tid players m r i = [realMatch tid p1 p2 (Z.of_nat (S r))].
Proof.
  unfold circleCell.
  destruct (players !! circlePos m r i) as [p1|]; [|by left].
  destruct (players !! circlePos m r (m - i)) as [p2|]; [|by left].
  right. by exists p1, p2.
Qed.

Lemma circleCell_full r i :
  (r < m)%nat → (i ≤ h)%nat →
  (circlePos m r i < n)%nat → (circlePos m r (m - i) < n)%nat →
  length (circleCell tid players m r i) = 1%nat.
Proof.
  intros Hr Hi H1 H2. unfold circleCell.
  destruct (lookup_lt_is_Some_2 players _ H1) as [p1 ->].
  destruct (lookup_lt_is_Some_2 players _ H2) as [p2 ->]. done.
Qed.

Lemma circleCell_phantom r i :
  (circlePos m r i = n ∨ circlePos m r (m - i) = n) →
  circleCell tid players m r i = [].
Proof.
  intros [H|H]; unfold circleCell; rewrite H.
  - by rewrite (lookup_ge_None_2 players n).
  - rewrite (lookup_ge_None_2 players n) by done. by destruct (players !! _).
Qed.

(** Every round plays [floor(n / 2)] matches. *)
Lemma round_length r :
  (r < m)%nat →
  length (flat_map (circleCell tid players m r) (seq 0 (S h))) = (n / 2)%nat.
Proof.
  intros Hr. destruct field_parity as [Hodd|Heven].
  - rewrite (flat_map_length_but_one _ _ (phantomPair m r)).
    + rewrite length_seq. unfold m in Hodd. lia.
    + apply NoDup_seq.
    + apply elem_of_seq. pose proof (phantomPair_spec h r 0 Hr). fold m in H. lia.
    + apply circleCell_phantom. rewrite Hodd.
      pose proof (phantomPair_spec h r (phantomPair m r) Hr) as H. fold m in H.
      pose proof (phantomPair_spec h r 0 Hr) as H0. fold m in H0.
      apply H; [lia|done].
    + intros i Hi Hne. apply elem_of_seq in Hi.
      pose proof (phantomPair_spec h r i Hr) as H. fold m in H.
      pose proof (circlePos_bound h r i Hr) as B1. fold m in B1.
      pose proof (circlePos_bound h r (m - i) Hr) as B2. fold m in B2.
      apply circleCell_full; lia.
  - rewrite (flat_map_length_const _ _ 1).
    + rewrite length_seq. unfold m in Heven. lia.
    + intros i Hi. apply elem_of_seq in Hi.
      pose proof (circlePos_bound h r i Hr) as B1. fold m in B1.
      pose proof (circlePos_bound h r (m - i) Hr) as B2. fold m in B2.
      apply circleCell_full; lia.
Qed.

Lemma schedule_length :
  length (generateRoundRobinBracket players tid) = (n * (n - 1) / 2)%nat.
Proof.
  rewrite generateRoundRobinBracket_circle by (fold n; lia). fold n h m.
  rewrite (flat_map_length_const _ _ (n / 2)).
  - rewrite length_seq.
    destruct field_parity as [Hodd|Heven].
    + assert (n - 1 = 2 * h)%nat as -> by (unfold m in Hodd; lia).
      replace (n * (2 * h))%nat with ((n * h) * 2)%nat by lia.
      rewrite Nat.div_mul by lia.
      replace (n / 2)%nat with h by (unfold m in Hodd; lia). lia.
    + assert (n - 1 = m)%nat as -> by lia.
      replace (n / 2)%nat with (S h) by (unfold m in Heven; lia).
      rewrite Heven. replace (S m * m)%nat with ((m * S h) * 2)%nat by (unfold m; lia).
      by rewrite Nat.div_mul by lia.
  - intros r Hr. apply elem_of_seq in Hr. apply round_length. lia.
Qed.

Lemma rounds_played : roundRobinRounds n = m.
Proof.
  unfold roundRobinRounds. destruct (Nat.even n) eqn:E.
  - apply Nat.even_spec in E as [k Hk]. unfold m, h. lia.
  - assert (Nat.odd n = true) as O by by rewrite <- Nat.negb_even, E.
    apply Nat.odd_spec in O as [k Hk]. unfold m, h. lia.
Qed.

(** The matches of round [round] are the cells of that round. *)
Lemma round_filter round :
  (1 ≤ round ≤ m)%nat →
  List.filter (λ mt, NewMatch.ronda mt =? Z.of_nat round)
              (generateRoundRobinBracket players tid)
  = flat_map (circleCell tid players m (round - 1)) (seq 0 (S h)).
Proof.
  intros Hround.
  rewrite generateRoundRobinBracket_circle by (fold n; lia). fold n h m.
  rewrite filter_flat_map.
  rewrite (flat_map_only _ _ (round - 1)%nat).
  - rewrite filter_flat_map. apply flat_map_ext_elem. intros i _.
    destruct (circleCell_cases (round - 1) i) as [->|(p1 & p2 & _ & _ & ->)]; [done|].
    cbn [List.filter realMatch NewMatch.ronda].
    destruct (Z.eqb_spec (Z.of_nat (S (round - 1))) (Z.of_nat round)); [done|lia].
  - apply NoDup_seq.
  - apply elem_of_seq. lia.
  - intros r Hr Hne. rewrite filter_flat_map. apply flat_map_nil. intros i _.
    destruct (circleCell_cases r i) as [->|(p1 & p2 & _ & _ & ->)]; [done|].
    cbn [List.filter realMatch NewMatch.ronda].
    destruct (Z.eqb_spec (Z.of_nat (S r)) (Z.of_nat round)); [lia|done].
Qed.

Hypothesis Hids : NoDup (Player.id <$> players).

Lemma id_index a b pa pb :
  players !! a = Some pa → players !! b = Some pb →
  Player.id pa = Player.id pb → a = b.
Proof.
  intros Ha Hb Heq.
  apply (NoDup_lookup _ a b (Player.id pa) Hids);
    rewrite list_lookup_fmap; [by rewrite Ha|by rewrite Hb, Heq].
Qed.

(** Every generated match opposes two different players of the field, in
    one of the rounds played. *)
Lemma schedule_matches mt :
  mt ∈ generateRoundRobinBracket players tid →
  ∃ p1 p2 round,
    p1 ∈ players ∧ p2 ∈ players ∧ Player.id p1 ≠ Player.id p2
    ∧ (1 ≤ round ≤ roundRobinRounds n)%nat
    ∧ mt = realMatch tid p1 p2 (Z.of_nat round).
Proof.
  rewrite generateRoundRobinBracket_circle by (fold n; lia). fold n h m.
  rewrite list_elem_of_In, in_flat_map. intros (r & Hr & Hmt).
  apply in_flat_map in Hmt as (i & Hi & Hmt).
  apply list_elem_of_In, elem_of_seq in Hr, Hi.
  destruct (circleCell_cases r i) as [E|(p1 & p2 & H1 & H2 & E)];
    rewrite E in Hmt; [done|].
  destruct Hmt as [<-|[]]. exists p1, p2, (S r).
  split_and!; try by eapply list_elem_of_lookup_2.
  - intros Heq. pose proof (id_index _ _ _ _ H1 H2 Heq) as Hpos.
    by apply (circle_pair_distinct h r i) in Hpos; [|fold m; lia|lia].
  - lia.
  - rewrite rounds_played. lia.
  - done.
Qed.

Section Pair.
Variables (a b : nat) (x y : Player.t).
Hypothesis Hab : (a < b)%nat.
Hypothesis Ha : players !! a = Some x.
Hypothesis Hb : players !! b = Some y.

Lemma opposes_indices r i p1 p2 rd :
  players !! circlePos m r i = Some p1 →
  players !! circlePos m r (m - i) = Some p2 →
  opposes (Player.id x) (Player.id y) (realMatch tid p1 p2 rd) = true →
  (circlePos m r i = a ∧ circlePos m r (m - i) = b)
  ∨ (circlePos m r i = b ∧ circlePos m r (m - i) = a).
Proof.
  intros H1 H2 Hop. apply bool_decide_eq_true in Hop. simpl in Hop.
  destruct Hop as [[E1 E2]|[E1 E2]]; simplify_eq; [left|right];
    split; eapply id_index; eauto.
Qed.

Lemma pair_once_ordered :
  length (List.filter (opposes (Player.id x) (Player.id y))
                      (generateRoundRobinBracket players tid)) = 1%nat.
Proof.
  assert (b < n)%nat as Hbn by by eapply lookup_lt_Some.
  destruct (circle_exists h a b Hab) as (r0 & i0 & Hr0 & Hi0 & Hpos);
    [destruct field_parity; lia|]. fold m in Hr0, Hpos.
  assert (Hother : ∀ r i, (r < m)%nat → (i ≤ h)%nat → (r, i) ≠ (r0, i0) →
            List.filter (opposes (Player.id x) (Player.id y))
                        (circleCell tid players m r i) = []).
  { intros r i Hr Hi Hne.
    destruct (circleCell_cases r i) as [->|(p1 & p2 & H1 & H2 & ->)]; [done|].
    simpl. destruct (opposes _ _ _) eqn:Hop; [exfalso|done].
    apply (opposes_indices _ _ _ _ _ H1 H2) in Hop.
    destruct (circle_unique h r i r0 i0) as [-> ->]; try done.
    fold m. destruct Hpos as [[-> ->]|[-> ->]]; tauto. }
  rewrite generateRoundRobinBracket_circle by (fold n; lia). fold n h m.
  rewrite filter_flat_map.
  rewrite (flat_map_only _ _ r0); [|apply NoDup_seq|apply elem_of_seq; lia|].
  2:{ intros r Hr Hne. apply elem_of_seq in Hr. rewrite filter_flat_map.
      apply flat_map_nil. intros i Hi. apply elem_of_seq in Hi.
      apply Hother; [lia..|congruence]. }
  rewrite filter_flat_map.
  rewrite (flat_map_only _ _ i0); [|apply NoDup_seq|apply elem_of_seq; lia|].
  2:{ intros i Hi Hne. apply elem_of_seq in Hi.
      apply Hother; [lia..|congruence]. }
  unfold circleCell.
  destruct Hpos as [[-> ->]|[-> ->]]; rewrite Ha, Hb; simpl;
    unfold opposes; simpl; rewrite bool_decide_eq_true_2; [done|tauto|done|tauto].
Qed.
End Pair.

Lemma opposes_sym u v mt : opposes u v mt = opposes v u mt.
Proof. unfold opposes. apply bool_decide_ext. tauto. Qed.

(** Two different players of the field meet in exactly one match. *)
Lemma pair_once x y :
  x ∈ players → y ∈ players → Player.id x ≠ Player.id y →
  length (List.filter (opposes (Player.id x) (Player.id y))
                      (generateRoundRobinBracket players tid)) = 1%nat.
Proof.
  intros Hx Hy Hne.
  apply list_elem_of_lookup in Hx as [a Ha], Hy as [b Hb].
  destruct (Nat.lt_total a b) as [Hlt|[->|Hlt]].
  - by apply (pair_once_ordered a b).
  - congruence.
  - rewrite (List.filter_ext _ _ (opposes_sym _ _)).
    by apply (pair_once_ordered b a).
Qed.
End RoundRobinCounts.

(** C5.  Round-robin generation for [n >= 2] distinct players creates
    [n * (n - 1) / 2] matches; they are spread over [n - 1] rounds when [n]
    is even and [n] rounds when [n] is odd, [floor(n / 2)] matches a round;
    every match opposes two different players of the field; and every two
    different players meet in exactly one match. *)
Theorem round_robin_schedule (players : list Player.t) (tournamentId : Z) :
  (2 ≤ length players)%nat →
  NoDup (Player.id <$> players) →
  let n := length players in
  let ms := generateRoundRobinBracket players tournamentId in
  length ms = (n * (n - 1) / 2)%nat
  ∧ (∀ round, (1 ≤ round ≤ roundRobinRounds n)%nat →
       length (List.filter (λ mt, NewMatch.ronda mt =? Z.of_nat round) ms)
       = (n / 2)%nat)
  ∧ (∀ mt, mt ∈ ms →
       ∃ p1 p2 round,
         p1 ∈ players ∧ p2 ∈ players ∧ Player.id p1 ≠ Player.id p2
         ∧ (1 ≤ round ≤ roundRobinRounds n)%nat
         ∧ mt = realMatch tournamentId p1 p2 (Z.of_nat round))
  ∧ (∀ x y, x ∈ players → y ∈ players → Player.id x ≠ Player.id y →
       length (List.filter (opposes (Player.id x) (Player.id y)) ms) = 1%nat).
Proof.
  intros Hn Hids. cbv zeta. split_and!.
  - by apply schedule_length.
  - intros round Hround.
    rewrite (rounds_played players Hn) in Hround.
    rewrite round_filter by done. apply round_length; [done|lia].
  - intros mt Hmt. by apply schedule_matches.
  - intros x y Hx Hy Hne. by apply pair_once.
Qed.

Lemma round_robin_schedule_witness :
  length (generateRoundRobinBracket fivePlayers 1) = (5 * (5 - 1) / 2)%nat.
Proof.
  refine (proj1 (round_robin_schedule fivePlayers 1 _ _)).
  - simpl. lia.
  - apply (bool_decide_unpack _). by vm_compute.
Defined.

(** * Sorting *)

Section Sorting.
Context {A : Type} (le : A → A → bool).
Let R (a b : A) : Prop := le a b = true.
Hypothesis le_total : ∀ a b, le a b = true ∨ le b a = true.
Hypothesis le_trans : ∀ a b c, le a b = true → le b c = true → le a c = true.

Lemma insertBy_Permutation x l : insertBy le x l ≡ₚ x :: l.
Proof.
  induction l as [|y l IH]; simpl; [done|].
  destruct (le x y); [done|]. rewrite IH. apply perm_swap.
Qed.

Lemma sortBy_Permutation l : sortBy le l ≡ₚ l.
Proof.
  induction l as [|x l IH]; simpl; [done|].
  by rewrite insertBy_Permutation, IH.
Qed.

Lemma insertBy_sorted x l :
  StronglySorted R l → StronglySorted R (insertBy le x l).
Proof.
  induction l as [|y l IH]; intros Hs; simpl.
  - repeat constructor.
  - apply StronglySorted_inv in Hs as [Hl Hy].
    destruct (le x y) eqn:Hxy.
    + constructor; [by constructor|].
      constructor; [done|]. eapply Forall_impl; [exact Hy|].
      intros z Hz. by eapply le_trans.
    + constructor; [by apply IH|].
      rewrite insertBy_Permutation. constructor; [|done].
      destruct (le_total x y); [congruence|done].
Qed.

Lemma sortBy_sorted l : StronglySorted R (sortBy le l).
Proof.
  induction l as [|x l IH]; simpl; [constructor|]. by apply insertBy_sorted.
Qed.
End Sorting.

Lemma sortBy_length {A} (le : A → A → bool) l : length (sortBy le l) = length l.
Proof.
  induction l as [|x l IH]; simpl; [done|]. rewrite <- IH.
  generalize (sortBy le l). intros k.
  induction k as [|y k IHk]; simpl; [done|]. destruct (le x y); simpl; lia.
Qed.

Lemma sortBy_elem_of {A} (le : A → A → bool) l x : x ∈ sortBy le l ↔ x ∈ l.
Proof.
  assert (∀ y k, x ∈ insertBy le y k ↔ x = y ∨ x ∈ k) as Hins.
  { intros y k. induction k as [|z k IH]; simpl.
    - rewrite list_elem_of_singleton, elem_of_nil. tauto.
    - destruct (le y z); rewrite !elem_of_cons; [tauto|]. rewrite IH. tauto. }
  induction l as [|y l IH]; simpl; [done|].
  rewrite Hins, elem_of_cons, IH. tauto.
Qed.

Lemma StronglySorted_weaken {A} (R R' : A → A → Prop) l :
  (∀ a b, R a b → R' a b) → StronglySorted R l → StronglySorted R' l.
Proof.
  intros HR. induction 1 as [|x l Hs IH Hx]; constructor; [done|].
  eapply Forall_impl; [exact Hx|]. intros y. apply HR.
Qed.

(** * Progression *)






Lemma matchRows_length next data : length (matchRows next data) = length data.
Proof. revert next. induction data as [|d data IH]; intros next; simpl; [done|]. by rewrite IH. Qed.






(** * Finalization and deletion *)

Lemma find_fmap {A} (P : A → bool) (f : A → A) (l : list A) :
  (∀ x, P (f x) = P x) → List.find P (f <$> l) = f <$> List.find P l.
Proof.
  intros Hf. induction l as [|x l IH]; simpl; [done|].
  rewrite Hf. by destruct (P x).
Qed.

Lemma sameButPlayers_refl s : sameButPlayers s s.
Proof. by repeat split. Qed.

Lemma sameButPlayers_trans s1 s2 s3 :
  sameButPlayers s1 s2 → sameButPlayers s2 s3 → sameButPlayers s1 s3.
Proof. unfold sameButPlayers. intros ? ?. split_and!; destruct_and!; congruence. Qed.

Lemma playerIncrement_same s q amt s' :
  playerIncrement s q amt = Some s' → sameButPlayers s s'.
Proof.
  unfold playerIncrement. destruct (existsb _ _); [|done].
  intros [= <-]. by repeat split.
Qed.

Lemma playerIncrement_puntosOf s q amt s' p :
  playerIncrement s q amt = Some s' →
  puntosOf s' p = (λ v, if decide (p = q) then v + amt else v) <$> puntosOf s p.
Proof.
  unfold playerIncrement. destruct (existsb _ _); [|done].
  intros [= <-]. unfold puntosOf. cbn [players withPlayers].
  rewrite find_fmap.
  2:{ intros x. by destruct (Player.id x =? q). }
  destruct (List.find _ (players s)) as [x|] eqn:Hfind; [|done].
  apply find_some in Hfind as [_ Hx]. apply Z.eqb_eq in Hx.
  simpl. f_equal. case_decide as Hpq.
  - subst q. rewrite Hx, Z.eqb_refl. done.
  - destruct (Z.eqb_spec (Player.id x) q); [congruence|done].
Qed.

Lemma awardAll_same s rows s' b : awardAll s rows = (s', b) → sameButPlayers s s'.
Proof.
  revert s. induction rows as [|r rows IH]; intros s; simpl.
  - intros [= <- _]. apply sameButPlayers_refl.
  - destruct (playerIncrement s _ _) as [s1|] eqn:H1.
    + intros H. eapply sameButPlayers_trans; [|by apply IH].
      by eapply playerIncrement_same.
    + intros [= <- _]. apply sameButPlayers_refl.
Qed.

Lemma awardAll_puntosOf s rows s' p :
  awardAll s rows = (s', true) →
  puntosOf s' p = (λ v, v + awardedTo p rows) <$> puntosOf s p.
Proof.
  revert s. induction rows as [|r rows IH]; intros s; simpl.
  - intros [= <-]. destruct (puntosOf s p); simpl; [f_equal; lia|done].
  - destruct (playerIncrement s _ _) as [s1|] eqn:H1; [|done].
    intros H. rewrite (IH _ H), (playerIncrement_puntosOf _ _ _ _ _ H1).
    destruct (puntosOf s p); simpl; [f_equal|done].
    case_decide as Hp.
    + subst p. rewrite Z.eqb_refl. lia.
    + destruct (Z.eqb_spec (TournamentResult.jugadorId r) p); [congruence|done].
Qed.

Lemma removeAll_same s rows s' b : removeAll s rows = (s', b) → sameButPlayers s s'.
Proof.
  revert s. induction rows as [|r rows IH]; intros s; simpl.
  - intros [= <- _]. apply sameButPlayers_refl.
  - unfold playerDecrement.
    destruct (playerIncrement s _ _) as [s1|] eqn:H1.
    + intros H. eapply sameButPlayers_trans; [|by apply IH].
      by eapply playerIncrement_same.
    + intros [= <- _]. apply sameButPlayers_refl.
Qed.

Lemma removeAll_puntosOf s rows s' p :
  removeAll s rows = (s', true) →
  puntosOf s' p = (λ v, v - awardedTo p rows) <$> puntosOf s p.
Proof.
  revert s. induction rows as [|r rows IH]; intros s; simpl.
  - intros [= <-]. destruct (puntosOf s p); simpl; [f_equal; lia|done].
  - unfold playerDecrement.
    destruct (playerIncrement s _ _) as [s1|] eqn:H1; [|done].
    intros H. rewrite (IH _ H), (playerIncrement_puntosOf _ _ _ _ _ H1).
    destruct (puntosOf s p); simpl; [f_equal|done].
    case_decide as Hp.
    + subst p. rewrite Z.eqb_refl. lia.
    + destruct (Z.eqb_spec (TournamentResult.jugadorId r) p); [congruence|done].
Qed.

Lemma playerSetRanking_same s q rank : sameButPlayers s (playerSetRanking s q rank).
Proof. by repeat split. Qed.

Lemma playerSetRanking_puntosOf s q rank p :
  puntosOf (playerSetRanking s q rank) p = puntosOf s p.
Proof.
  unfold puntosOf, playerSetRanking. cbn [players withPlayers].
  rewrite find_fmap.
  2:{ intros x. by destruct (Player.id x =? q). }
  destruct (List.find _ (players s)) as [x|]; [|done].
  simpl. by destruct (Player.id x =? q).
Qed.

Lemma updateRankings_spec s :
  sameButPlayers s (updateRankings s)
  ∧ ∀ p, puntosOf (updateRankings s) p = puntosOf s p.
Proof.
  unfold updateRankings. generalize (imap pair (sortBy (λ a b, Player.puntos b <=? Player.puntos a) (players s))).
  intros l. revert s. induction l as [|ip l IH]; intros s; simpl.
  - split; [apply sameButPlayers_refl|done].
  - destruct (IH (playerSetRanking s (Player.id ip.2) (Z.of_nat ip.1 + 1))) as [H1 H2].
    split.
    + eapply sameButPlayers_trans; [apply playerSetRanking_same|exact H1].
    + intros p. by rewrite H2, playerSetRanking_puntosOf.
Qed.

Lemma tournamentFindUnique_id s t x :
  tournamentFindUnique s t = Some x → Tournament.id x = t.
Proof.
  unfold tournamentFindUnique. intros H. apply find_some in H as [_ H].
  by apply Z.eqb_eq.
Qed.

Lemma tournamentUpdateEstado_find s t e x :
  tournamentFindUnique s t = Some x →
  tournamentFindUnique (tournamentUpdateEstado s t e) t
  = Some (Tournament.withEstado x e).
Proof.
  intros H. pose proof (tournamentFindUnique_id _ _ _ H) as Hid.
  unfold tournamentFindUnique, tournamentUpdateEstado in *.
  cbn [tournaments withTournaments]. rewrite find_fmap.
  - rewrite H. simpl. rewrite Hid. rewrite Z.eqb_refl. done.
  - intros y. destruct (Tournament.id y =? t) eqn:E; [exact E|done].
Qed.

(** What a run of [finalizeTournament] that goes through does to the store. *)
Lemma finalize_completed s t w s' :
  finalizeTournamentRun s t w = (s', Completed) →
  ∃ x, tournamentFindUnique s t = Some x
       ∧ Tournament.estado x ≠ Finalizado
       ∧ tournamentFindUnique s' t = Some (Tournament.withEstado x Finalizado)
       ∧ tournamentResults s' = tournamentResults s ++ finalResults s t
       ∧ matches s' = matches s
       ∧ ∀ p, puntosOf s' p = (λ v, v + awardedTo p (finalResults s t)) <$> puntosOf s p.
Proof.
  unfold finalizeTournamentRun.
  destruct (tournamentFindUnique s t) as [x|] eqn:Hx; [|done].
  case_decide as Hest; [done|].
  destruct (awardAll _ _) as [s2 [|]] eqn:Haward; [|done].
  intros [= <-]. exists x.
  pose proof (awardAll_same _ _ _ _ Haward) as (Ht & Hm & _ & _ & Hr & _).
  destruct (updateRankings_spec s2) as [(Ht' & Hm' & _ & _ & Hr' & _) Hp'].
  split_and!; try done.
  - apply tournamentUpdateEstado_find. unfold tournamentFindUnique in *.
    by rewrite Ht', Ht.
  - cbn. by rewrite Hr', Hr.
  - cbn. by rewrite Hm', Hm.
  - intros p. unfold puntosOf at 1. cbn [players tournamentUpdateEstado withTournaments].
    fold (puntosOf (updateRankings s2) p).
    by rewrite Hp', (awardAll_puntosOf _ _ _ _ Haward).
Qed.

(** C7.  When a first call of [finalizeTournament] does not end in its
    [catch], a second call stops at the "ya está finalizado" guard and
    returns the store as the first call left it: no further result row, no
    further points, the tournament state untouched. *)
Theorem finalize_twice (s : Store) (tournamentId winnerId winnerId' : Z) :
  snd (finalizeTournamentRun s tournamentId winnerId) ≠ Caught →
  finalizeTournamentRun (finalizeTournament s tournamentId winnerId)
                        tournamentId winnerId'
  = (finalizeTournament s tournamentId winnerId, AlreadyFinalized).
Proof.
  unfold finalizeTournament.
  destruct (finalizeTournamentRun s tournamentId winnerId) as [s' o] eqn:Hrun.
  simpl. intros Ho. destruct o; [| |done].
  - apply finalize_completed in Hrun as (x & _ & _ & Hx' & _).
    unfold finalizeTournamentRun. by rewrite Hx'.
  - unfold finalizeTournamentRun in *.
    destruct (tournamentFindUnique s tournamentId) as [x|] eqn:Hx; [|done].
    case_decide as Hest.
    + simplify_eq. rewrite Hx. by case_decide.
    + by destruct (awardAll _ _) as [? [|]].
Qed.

Lemma finalize_twice_witness :
  finalizeTournamentRun (finalizeTournament roundOneOver 1 10) 1 10
  = (finalizeTournament roundOneOver 1 10, AlreadyFinalized).
Proof.
  apply (finalize_twice roundOneOver 1 10 10).
  vm_compute. discriminate.
Defined.

Lemma filter_imap_all {A B} (P : B → bool) (f : nat → A → B) (l : list A) :
  (∀ i x, P (f i x) = true) → List.filter P (imap f l) = imap f l.
Proof.
  revert f. induction l as [|x l IH]; intros f Hf; simpl; [done|].
  rewrite Hf. f_equal. apply IH. intros i y. apply Hf.
Qed.

Lemma finalResults_own s t :
  List.filter (λ r, TournamentResult.torneoId r =? t) (finalResults s t)
  = finalResults s t.
Proof. apply filter_imap_all. intros i x. simpl. apply Z.eqb_refl. Qed.

Lemma filter_keep_after_drop {A} (key : A → Z) (l : list A) (id id' : Z) :
  List.filter (λ r, key r =? id') (List.filter (λ r, negb (key r =? id)) l)
  = if decide (id' = id) then [] else List.filter (λ r, key r =? id') l.
Proof.
  induction l as [|x l IH]; simpl; [by case_decide|].
  destruct (Z.eqb_spec (key x) id) as [E|E]; simpl.
  - rewrite IH. case_decide; [done|].
    destruct (Z.eqb_spec (key x) id'); [congruence|done].
  - destruct (Z.eqb_spec (key x) id') as [E'|E']; rewrite IH; case_decide; try done.
    congruence.
Qed.

(** C8.  A deletion that goes through takes from every player the points
    that the tournament's result rows hold for him and removes those rows,
    leaving the rows of other tournaments alone; when the store it runs on is
    the one a finalization of that tournament has just produced (the
    tournament having had no rows before), every player's points are back at
    their value before the finalization. *)
Theorem delete_reverses_award (s : Store) (id : Z) (force : bool)
    (s' : Store) (body : DeleteBody.t) :
  deleteTournament s id force = (s', Ok body) →
  (∀ p, puntosOf s' p = (λ v, v - awardedTo p (resultsOf s id)) <$> puntosOf s p)
  ∧ resultsOf s' id = []
  ∧ (∀ id', id' ≠ id → resultsOf s' id' = resultsOf s id')
  ∧ (∀ s0 w, resultsOf s0 id = [] →
       finalizeTournamentRun s0 id w = (s, Completed) →
       ∀ p, puntosOf s' p = puntosOf s0 p).
Proof.
  intros Hdel.
  assert (Hp : ∀ p, puntosOf s' p
                    = (λ v, v - awardedTo p (resultsOf s id)) <$> puntosOf s p).
  { revert Hdel. unfold deleteTournament.
    destruct (tournamentFindUnique s id); [|done].
    destruct (_ && negb force); [done|].
    destruct (removeAll _ _) as [s3 [|]] eqn:Hrem; [|done].
    intros [= <- _] p.
    transitivity (puntosOf s3 p); [done|].
    rewrite (removeAll_puntosOf _ _ _ _ Hrem). unfold resultsOf.
    f_equal. unfold puntosOf. by destruct (force && _). }
  assert (Hr : tournamentResults s'
               = List.filter (λ r, negb (TournamentResult.torneoId r =? id))
                             (tournamentResults s)).
  { revert Hdel. unfold deleteTournament.
    destruct (tournamentFindUnique s id); [|done].
    destruct (_ && negb force); [done|].
    destruct (removeAll _ _) as [s3 [|]] eqn:Hrem; [|done].
    intros [= <- _].
    apply removeAll_same in Hrem as (_ & _ & _ & _ & Hres & _).
    cbn. rewrite Hres. cbn. by destruct (force && _). }
  split_and!.
  - done.
  - unfold resultsOf. rewrite Hr, filter_keep_after_drop. by case_decide.
  - intros id' Hne. unfold resultsOf. rewrite Hr, filter_keep_after_drop.
    by case_decide.
  - intros s0 w Hnone Hfin p.
    apply finalize_completed in Hfin as (_ & _ & _ & _ & Hres & _ & Hpts).
    rewrite Hp, Hpts. unfold resultsOf in *.
    rewrite Hres, List.filter_app, Hnone, finalResults_own. simpl.
    destruct (puntosOf s0 p); simpl; [f_equal; lia|done].
Qed.

Lemma delete_reverses_award_witness :
  let s := finalizeTournament roundOneOver 1 10 in
  let s' := fst (deleteTournament s 1 true) in
  puntosOf s 10 = Some 100 ∧ ∀ p, puntosOf s' p = puntosOf roundOneOver p.
Proof.
  intros s s'. split; [by vm_compute|].
  refine (proj2 (proj2 (proj2
            (delete_reverses_award s 1 true s' (DeleteBody.mk 3 225) _)))
            roundOneOver 10 _ _); by vm_compute.
Defined.

(** * Final standings *)

Lemma mapGet_mapSet m k v k' :
  mapGet (mapSet m k v) k' = if decide (k' = k) then Some v else mapGet m k'.
Proof.
  unfold mapGet. induction m as [|[k0 v0] m IH]; simpl.
  - destruct (Z.eqb_spec k k'); case_decide; try done; congruence.
  - destruct (Z.eqb_spec k0 k) as [->|Hne]; simpl.
    + destruct (Z.eqb_spec k k'); case_decide; try done; congruence.
    + destruct (Z.eqb_spec k0 k'); [|done].
      case_decide; [congruence|done].
Qed.

Lemma mapGet_None m k : mapGet m k = None ↔ k ∉ m.*1.
Proof.
  unfold mapGet. induction m as [|[k0 v0] m IH]; simpl.
  - split; [intros _; apply not_elem_of_nil|done].
  - rewrite not_elem_of_cons. destruct (Z.eqb_spec k0 k); simpl.
    + split; [done|]. intros [? _]. congruence.
    + rewrite IH. split; [intros; split; [congruence|done]|tauto].
Qed.

Lemma mapSet_keys m k v :
  (mapSet m k v).*1 = if decide (k ∈ m.*1) then m.*1 else m.*1 ++ [k].
Proof.
  induction m as [|[k0 v0] m IH].
  - rewrite decide_False; [done|apply not_elem_of_nil].
  - cbn [mapSet]. destruct (Z.eqb_spec k0 k) as [->|Hne]; cbn [fmap list_fmap fst].
    + rewrite decide_True by left. done.
    + rewrite IH. case_decide as H.
      * rewrite decide_True by by right. done.
      * rewrite decide_False; [done|]. rewrite elem_of_cons. intros [?|?]; [congruence|done].
Qed.

Lemma mapSet_NoDup m k v : NoDup m.*1 → NoDup (mapSet m k v).*1.
Proof.
  intros H. rewrite mapSet_keys. case_decide as Hk; [done|].
  apply NoDup_app. split_and!; [done| |apply NoDup_singleton].
  intros x Hx Hx'. apply list_elem_of_singleton in Hx'. by subst.
Qed.

Lemma mapGet_elem m k v : NoDup m.*1 → (k, v) ∈ m → mapGet m k = Some v.
Proof.
  unfold mapGet. induction m as [|[k0 v0] m IH]; intros Hnd Hin; simpl.
  - by apply elem_of_nil in Hin.
  - simpl in Hnd. apply NoDup_cons in Hnd as [Hk0 Hnd].
    apply elem_of_cons in Hin as [[= -> ->]|Hin].
    + by rewrite Z.eqb_refl.
    + destruct (Z.eqb_spec k0 k) as [->|Hne]; [|by apply IH].
      exfalso. apply Hk0. apply list_elem_of_fmap. by exists (k, v).
Qed.

Lemma winsOf_nonneg ms p : 0 ≤ winsOf ms p.
Proof. unfold winsOf. lia. Qed.

Lemma winsOf_snoc ms x p :
  winsOf (ms ++ [x]) p
  = winsOf ms p + (if decide (Match.ganadorId x = Some p) then 1 else 0).
Proof.
  unfold winsOf. rewrite List.filter_app, length_app. simpl.
  case_bool_decide; case_decide; try done; simpl; lia.
Qed.

Lemma winsOf_Permutation ms ms' p : ms ≡ₚ ms' → winsOf ms p = winsOf ms' p.
Proof.
  intros H. unfold winsOf. f_equal.
  induction H; simpl; repeat case_bool_decide; simpl; lia.
Qed.

Lemma winsOf_pos ms p :
  0 < winsOf ms p ↔ ∃ m, m ∈ ms ∧ Match.ganadorId m = Some p.
Proof.
  unfold winsOf. induction ms as [|x ms IH]; simpl.
  - split; [lia|]. intros (m & Hm & _). by apply elem_of_nil in Hm.
  - case_bool_decide as Hx; simpl.
    + split; [|lia]. intros _. exists x. split; [left|done].
    + rewrite IH. split.
      * intros (m & Hm & Hg). exists m. split; [by right|done].
      * intros (m & Hm & Hg). apply elem_of_cons in Hm as [->|Hm]; [done|].
        by exists m.
Qed.

(** The map built by the counting loop: its keys are distinct, and a key
    is bound to its number of wins so far. *)
Lemma countWins_spec ms :
  NoDup (countWins ms).*1
  ∧ ∀ k, mapGet (countWins ms) k
         = if decide (countedWins ms k = 0) then None else Some (countedWins ms k).
Proof.
  unfold countWins. induction ms as [|x ms IH] using rev_ind.
  - simpl. split; [constructor|]. intros k. unfold countedWins, winsOf. simpl.
    by repeat case_decide.
  - rewrite foldl_snoc. destruct IH as [IHnd IHget].
    set (m := foldl _ [] ms) in *.
    assert (Hstay : ∀ k, (∀ g, Match.ganadorId x = Some g → g = 0) →
                         countedWins (ms ++ [x]) k = countedWins ms k).
    { intros k Hg. unfold countedWins. case_decide; [done|].
      rewrite winsOf_snoc. case_decide as Hx; [|lia]. apply Hg in Hx. done. }
    destruct (Match.ganadorId x) as [g|] eqn:Hgx.
    + unfold truthy. destruct (Z.eqb_spec g 0) as [->|Hg0]; cbn [negb].
      * split; [done|]. intros k. rewrite Hstay; [done|]. congruence.
      * split; [by apply mapSet_NoDup|].
        intros k. rewrite mapGet_mapSet, (IHget g).
        assert (countedWins (ms ++ [x]) g = countedWins ms g + 1) as Hg.
        { unfold countedWins. rewrite !decide_False by done.
          rewrite winsOf_snoc. by rewrite decide_True. }
        assert (0 ≤ countedWins ms g) as Hnn.
        { unfold countedWins. case_decide; [done|apply winsOf_nonneg]. }
        case_decide as Hk.
        -- subst k. rewrite Hg. rewrite (decide_False (P := _ + 1 = 0)) by lia.
           f_equal. case_decide as H0; simpl; lia.
        -- rewrite IHget.
           replace (countedWins (ms ++ [x]) k) with (countedWins ms k); [done|].
           unfold countedWins. case_decide; [done|].
           rewrite winsOf_snoc, Hgx. rewrite decide_False; [lia|congruence].
    + split; [done|]. intros k. rewrite Hstay; [done|]. congruence.
Qed.

Lemma countWins_key ms k :
  k ∈ (countWins ms).*1 ↔ k ≠ 0 ∧ ∃ m, m ∈ ms ∧ Match.ganadorId m = Some k.
Proof.
  destruct (countWins_spec ms) as [_ Hget].
  rewrite <- winsOf_pos.
  destruct (decide (k ∈ (countWins ms).*1)) as [Hin|Hnin].
  - split; [intros _|done].
    assert (mapGet (countWins ms) k ≠ None) as Hne by by rewrite mapGet_None; tauto.
    rewrite Hget in Hne. case_decide as H0; [done|].
    unfold countedWins in H0. case_decide; [done|].
    pose proof (winsOf_nonneg ms k). split; [done|lia].
  - split; [done|]. intros [Hk Hpos]. exfalso.
    apply mapGet_None in Hnin. rewrite Hget in Hnin.
    case_decide as H0; [|done]. unfold countedWins in H0.
    rewrite decide_False in H0 by done. lia.
Qed.

Lemma countWins_value ms k v :
  (k, v) ∈ countWins ms → k ≠ 0 ∧ v = winsOf ms k.
Proof.
  intros Hin. destruct (countWins_spec ms) as [Hnd Hget].
  assert (k ∈ (countWins ms).*1) as Hk.
  { apply list_elem_of_fmap. by exists (k, v). }
  apply countWins_key in Hk as [Hk0 _]. split; [done|].
  pose proof (mapGet_elem _ _ _ Hnd Hin) as Hv. rewrite Hget in Hv.
  case_decide; [done|]. injection Hv as <-.
  unfold countedWins. by rewrite decide_False.
Qed.

Lemma StronglySorted_lookup {A} (R : A → A → Prop) l i j x y :
  StronglySorted R l → (i < j)%nat → l !! i = Some x → l !! j = Some y → R x y.
Proof.
  intros Hs. revert i j. induction Hs as [|z l Hs IH Hz]; intros i j Hij Hi Hj.
  - done.
  - destruct j as [|j]; [lia|]. destruct i as [|i]; simpl in *.
    + injection Hi as ->. rewrite Forall_forall in Hz. apply Hz.
      by eapply list_elem_of_lookup_2.
    + apply (IH i j); [lia|done..].
Qed.

Lemma awardedTo_unique rows r :
  NoDup (TournamentResult.jugadorId <$> rows) → r ∈ rows →
  awardedTo (TournamentResult.jugadorId r) rows = TournamentResult.puntosGanados r.
Proof.
  induction rows as [|x rows IH]; intros Hnd Hin; [by apply elem_of_nil in Hin|].
  simpl in *. apply NoDup_cons in Hnd as [Hx Hnd].
  assert (∀ p, p ∉ (TournamentResult.jugadorId <$> rows) → awardedTo p rows = 0) as Hzero.
  { clear. intros p. induction rows as [|y rows IH]; simpl; [done|].
    rewrite not_elem_of_cons. intros [Hne Hp].
    destruct (Z.eqb_spec (TournamentResult.jugadorId y) p); [congruence|]. by apply IH. }
  apply elem_of_cons in Hin as [->|Hin].
  - rewrite Z.eqb_refl, Hzero by done. lia.
  - destruct (Z.eqb_spec (TournamentResult.jugadorId x) (TournamentResult.jugadorId r)) as [E|E].
    + exfalso. apply Hx. rewrite E. by apply list_elem_of_fmap_2.
    + by apply IH.
Qed.

Lemma tournamentMatches_Permutation s t :
  tournamentMatches s t ≡ₚ List.filter (λ m, Match.torneoId m =? t) (matches s).
Proof. apply sortBy_Permutation. Qed.

Lemma finalResults_players s t :
  TournamentResult.jugadorId <$> finalResults s t
  = Position.playerId <$> calculateFinalPositions (tournamentMatches s t).
Proof.
  unfold finalResults. rewrite fmap_imap.
  generalize (calculateFinalPositions (tournamentMatches s t)). intros l.
  rewrite <- (imap_const Position.playerId). by apply imap_ext.
Qed.

Lemma finalPositions_Permutation ms :
  Position.playerId <$> calculateFinalPositions ms ≡ₚ (countWins ms).*1.
Proof.
  unfold calculateFinalPositions. rewrite sortBy_Permutation.
  rewrite <- list_fmap_compose.
  replace (Position.playerId ∘ (λ kv : Z * Z, Position.mk kv.1 kv.2) <$> countWins ms)
    with (countWins ms).*1; [done|]. by apply list_fmap_ext.
Qed.

Lemma finalPositions_wins ms pos :
  pos ∈ calculateFinalPositions ms →
  Position.playerId pos ≠ 0 ∧ Position.wins pos = winsOf ms (Position.playerId pos).
Proof.
  unfold calculateFinalPositions. rewrite sortBy_elem_of, list_elem_of_fmap.
  intros ([k v] & -> & Hin). simpl. by apply countWins_value.
Qed.

Lemma finalPositions_sorted ms :
  StronglySorted (λ a b, Position.wins b ≤ Position.wins a)
                 (calculateFinalPositions ms).
Proof.
  unfold calculateFinalPositions.
  eapply StronglySorted_weaken;
    [|apply (sortBy_sorted (λ a b, Position.wins b - Position.wins a <=? 0))].
  - intros a b H. apply Z.leb_le in H. lia.
  - intros a b. rewrite !Z.leb_le. lia.
  - intros a b c. rewrite !Z.leb_le. lia.
Qed.

Lemma awardedTo_absent rows p :
  p ∉ (TournamentResult.jugadorId <$> rows) → awardedTo p rows = 0.
Proof.
  induction rows as [|r rows IH]; [done|].
  rewrite fmap_cons, not_elem_of_cons. intros [Hr Hrows]. cbn [awardedTo foldr].
  fold (awardedTo p rows). rewrite (IH Hrows).
  destruct (Z.eqb_spec (TournamentResult.jugadorId r) p); [congruence|done].
Qed.

(** C2, as amended.  A finalization that goes through appends one result
    row for every player who won at least one match of the tournament (and
    for nobody else): row [i] has position [i + 1] and the points of that
    position, the rows stand in descending order of total wins over all the
    tournament's matches, and each of these players gains exactly the points
    of his row.  A player without a row, and so every player who won no
    match, keeps the points he had. *)
Theorem final_standings (s : Store) (tournamentId winnerId : Z) (s' : Store) :
  finalizeTournamentRun s tournamentId winnerId = (s', Completed) →
  let ms := List.filter (λ m, Match.torneoId m =? tournamentId) (matches s) in
  let rows := finalResults s tournamentId in
  tournamentResults s' = tournamentResults s ++ rows
  ∧ NoDup (TournamentResult.jugadorId <$> rows)
  ∧ (∀ p, p ∈ TournamentResult.jugadorId <$> rows
          ↔ p ≠ 0 ∧ ∃ m, m ∈ ms ∧ Match.ganadorId m = Some p)
  ∧ (∀ i r, rows !! i = Some r →
            TournamentResult.torneoId r = tournamentId
            ∧ TournamentResult.posicionFinal r = Z.of_nat i + 1
            ∧ TournamentResult.puntosGanados r = calculatePoints (Z.of_nat i + 1))
  ∧ (∀ i j ri rj, (i < j)%nat → rows !! i = Some ri → rows !! j = Some rj →
       winsOf ms (TournamentResult.jugadorId rj)
       ≤ winsOf ms (TournamentResult.jugadorId ri))
  ∧ (∀ r, r ∈ rows →
       puntosOf s' (TournamentResult.jugadorId r)
       = (λ v, v + TournamentResult.puntosGanados r)
           <$> puntosOf s (TournamentResult.jugadorId r))
  ∧ (∀ p, p ∉ (TournamentResult.jugadorId <$> rows) → puntosOf s' p = puntosOf s p)
  ∧ (∀ p, (∀ m, m ∈ ms → Match.ganadorId m ≠ Some p) →
          puntosOf s' p = puntosOf s p
          ∧ ¬ (p ∈ TournamentResult.jugadorId <$> rows)).
Proof.
  intros Hrun ms rows.
  apply finalize_completed in Hrun as (_ & _ & _ & _ & Hres & _ & Hpts).
  pose proof (tournamentMatches_Permutation s tournamentId) as HM. fold ms in HM.
  assert (Hids : TournamentResult.jugadorId <$> rows
                 ≡ₚ (countWins (tournamentMatches s tournamentId)).*1).
  { unfold rows. by rewrite finalResults_players, finalPositions_Permutation. }
  assert (Hnd : NoDup (TournamentResult.jugadorId <$> rows)).
  { rewrite Hids. apply countWins_spec. }
  split_and!.
  - done.
  - done.
  - intros p. rewrite Hids, countWins_key.
    split; intros [H0 (m & Hm & Hg)]; (split; [done|]); exists m;
      (split; [|done]); [by rewrite <- HM|by rewrite HM].
  - intros i r Hr. unfold rows, finalResults in Hr.
    rewrite list_lookup_imap in Hr.
    destruct (_ !! i) as [pos|]; [|done]. by injection Hr as <-.
  - intros i j ri rj Hij Hi Hj. unfold rows, finalResults in Hi, Hj.
    rewrite list_lookup_imap in Hi, Hj.
    destruct (_ !! i) as [pi|] eqn:Hpi; [|done].
    destruct (_ !! j) as [pj|] eqn:Hpj; [|done].
    injection Hi as <-. injection Hj as <-. simpl.
    pose proof (StronglySorted_lookup _ _ _ _ _ _
                  (finalPositions_sorted _) Hij Hpi Hpj) as Hle.
    apply list_elem_of_lookup_2, finalPositions_wins in Hpi as [_ Hwi].
    apply list_elem_of_lookup_2, finalPositions_wins in Hpj as [_ Hwj].
    cbv beta in Hle. rewrite Hwi, Hwj in Hle.
    by rewrite <- !(winsOf_Permutation _ _ _ HM).
  - intros r Hr. rewrite Hpts. by rewrite awardedTo_unique.
  - intros p Hp. rewrite Hpts, awardedTo_absent by done.
    destruct (puntosOf s p); cbn; [f_equal; lia|done].
  - intros p Hp.
    assert (Hno : p ∉ (TournamentResult.jugadorId <$> rows)).
    { rewrite Hids, countWins_key. intros [_ (m & Hm & Hg)].
      rewrite HM in Hm. by apply (Hp m). }
    split; [|done]. rewrite Hpts, awardedTo_absent by done.
    destruct (puntosOf s p); cbn; [f_equal; lia|done].
Qed.

Lemma final_standings_witness :
  let s' := finalizeTournament roundOneOver 1 10 in
  tournamentResults s'
  = [TournamentResult.mk 1 10 1 100; TournamentResult.mk 1 30 2 75;
     TournamentResult.mk 1 50 3 50].
Proof.
  exact (proj1 (final_standings roundOneOver 1 10
                  (finalizeTournament roundOneOver 1 10) eq_refl)).
Defined.

(** C2 as stated fails: players 20, 40 and 60 played in the tournament and
    lost; the finalization goes through and leaves no row for them. *)
Lemma final_standings_counterexample :
  let s' := finalizeTournament roundOneOver 1 10 in
  snd (finalizeTournamentRun roundOneOver 1 10) = Completed
  ∧ (∃ m, m ∈ matches roundOneOver ∧ Match.torneoId m = 1
          ∧ Match.jugador2Id m = Some 20)
  ∧ List.filter (λ r, TournamentResult.jugadorId r =? 20) (tournamentResults s') = []
  ∧ puntosOf s' 20 = puntosOf roundOneOver 20.
Proof.
  split; [by vm_compute|]. split; [|by vm_compute].
  eexists. split; [left|]. by vm_compute.
Qed.

(** * Bracket generation request and result recording *)

(** C9.  For a pending tournament of type 'Doble eliminación' and at least
    two resolved players, [POST /:id/generate-bracket] answers 200 with
    [matchesCreated = 0]; the store changes only in that the tournament is
    now 'En curso': no match is created. *)
Theorem double_elimination_generates_nothing
    (rnd : nat → nat) (shuf : list Player.t → list Player.t)
    (s : Store) (id : Z) (playerIds : list Z) (t : Tournament.t) :
  tournamentFindUnique s id = Some t →
  Tournament.estado t = Pendiente →
  Tournament.tipo t = "Doble eliminación" →
  (2 ≤ length (playerFindManyIn s playerIds))%nat →
  let s' := tournamentUpdateEstado s id EnCurso in
  postGenerateBracket rnd shuf s id playerIds = (s', Ok (BracketBody.mk 0))
  ∧ matches s' = matches s
  ∧ tournamentFindUnique s' id = Some (Tournament.withEstado t EnCurso).
Proof.
  intros Ht Hest Htipo Hn s'. split_and!.
  - unfold postGenerateBracket. rewrite Ht, Hest, Htipo.
    destruct (Nat.ltb_spec (length (playerFindManyIn s playerIds)) 2); [lia|].
    done.
  - done.
  - by apply tournamentUpdateEstado_find.
Qed.

Lemma double_elimination_witness :
  postGenerateBracket (λ i, i) (λ l, l) doubleEliminationPending 1 [10; 20]
  = (tournamentUpdateEstado doubleEliminationPending 1 EnCurso,
     Ok (BracketBody.mk 0)).
Proof.
  refine (proj1 (double_elimination_generates_nothing (λ i, i) (λ l, l)
                   doubleEliminationPending 1 [10; 20]
                   (Tournament.mk 1 "Doble eliminación" Pendiente 5) _ _ _ _)).
  - reflexivity.
  - reflexivity.
  - reflexivity.
  - vm_compute. lia.
Defined.

Lemma finalizeTournamentRun_tables s t w :
  matches (fst (finalizeTournamentRun s t w)) = matches s
  ∧ sets (fst (finalizeTournamentRun s t w)) = sets s.
Proof.
  unfold finalizeTournamentRun.
  destruct (tournamentFindUnique s t); [|done].
  case_decide; [done|].
  destruct (awardAll _ _) as [s2 b] eqn:Haward.
  apply awardAll_same in Haward as (_ & Hm & Hs & _).
  destruct b; simpl.
  - destruct (updateRankings_spec s2) as [(_ & Hm' & Hs' & _) _].
    by rewrite Hm', Hs', Hm, Hs.
  - by rewrite Hm, Hs.
Qed.

Lemma generateNextMatch_sets s m : sets (generateNextMatch s m) = sets s.
Proof.
  unfold generateNextMatch.
  destruct (negb _); [done|].
  destruct (length _ <=? 1)%nat.
  - destruct (roundWinners _) as [|w [|? ?]]; try done.
    apply finalizeTournamentRun_tables.
  - by destruct (0 <? _)%nat.
Qed.

Lemma countSets_tie sets k set :
  sets !! k = Some set →
  SetScore.player1Score set = SetScore.player2Score set →
  countSets sets = countSets (delete k sets).
Proof.
  intros Hk Htie. unfold countSets.
  rewrite <- (take_drop_middle _ _ _ Hk) at 1.
  rewrite delete_take_drop, !foldl_app. cbn [foldl].
  rewrite Htie, Z.ltb_irrefl. done.
Qed.

(** What an accepted submission does. *)
Lemma putResult_accepted s id submitted winnerId status s' m' m :
  putResult s id submitted winnerId status = (s', Ok m') →
  matchFindUnique s id = Some m →
  let update := recordResult (countSets submitted).1 (countSets submitted).2
                             winnerId status in
  m' = update m
  ∧ s' = generateNextMatch
           (replaceSets (matchUpdate s id update) id (setsToCreate id m submitted)) m'
  ∧ Match.estado m ≠ Finalizado
  ∧ (winnerId = Match.jugador1Id m ∨ Match.jugador2Id m = Some winnerId).
Proof.
  intros Hput Hm. unfold putResult in Hput. rewrite Hm in Hput.
  repeat case_match; simplify_eq; cbv zeta; split_and!; try done.
  all: match goal with
       | H : negb (_ =? _) && negb (bool_decide _) = false |- _ =>
           apply andb_false_iff in H as [H|H]; apply negb_false_iff in H;
           [left; by apply Z.eqb_eq|right; by apply bool_decide_eq_true in H]
       end.
Qed.

(** C10.  When a submission is accepted, the match's Set rows are exactly
    the rows built from the submission; the row of a set with equal scores
    carries the match's player 2 as winner, while the recorded sets counts
    are those of the submission without that set. *)
Theorem tied_set_goes_to_player2 (s : Store) (id : Z)
    (submitted : list SetScore.t) (winnerId : Z) (status : Estado)
    (s' : Store) (m' m : Match.t) (k : nat) (set : SetScore.t) :
  putResult s id submitted winnerId status = (s', Ok m') →
  matchFindUnique s id = Some m →
  submitted !! k = Some set →
  SetScore.player1Score set = SetScore.player2Score set →
  List.filter (λ r, SetRow.partidoId r =? id) (sets s') = setsToCreate id m submitted
  ∧ setsToCreate id m submitted !! k
    = Some (SetRow.mk id (Z.of_nat k + 1) (SetScore.player1Score set)
                      (SetScore.player2Score set) (Match.jugador2Id m))
  ∧ (Match.setsJ1 m', Match.setsJ2 m') = countSets (delete k submitted).
Proof.
  intros Hput Hm Hk Htie.
  destruct (putResult_accepted _ _ _ _ _ _ _ _ Hput Hm) as (-> & -> & _ & _).
  split_and!.
  - rewrite generateNextMatch_sets. unfold replaceSets.
    cbn [sets withSets matchUpdate withMatches].
    assert (List.filter (λ r, SetRow.partidoId r =? id) (setsToCreate id m submitted)
            = setsToCreate id m submitted) as Hown.
    { apply filter_imap_all. intros i x. simpl. apply Z.eqb_refl. }
    destruct (Nat.ltb_spec 0 (length (setsToCreate id m submitted))) as [Hlen|Hlen].
    + rewrite List.filter_app, Hown, (filter_keep_after_drop SetRow.partidoId).
      by rewrite decide_True.
    + rewrite (filter_keep_after_drop SetRow.partidoId), decide_True by done.
      symmetry. apply nil_length_inv. lia.
  - unfold setsToCreate. rewrite list_lookup_imap, Hk. simpl.
    by rewrite Htie, Z.ltb_irrefl.
  - cbn [recordResult Match.setsJ1 Match.setsJ2].
    rewrite <- (countSets_tie _ _ _ Hk Htie). by destruct (countSets submitted).
Qed.

Lemma tied_set_goes_to_player2_witness :
  let s' := fst (putResult finalToPlay 1 tiedSubmission 10 Finalizado) in
  let m := Match.mk 1 1 10 (Some 20) 1 "Principal" Pendiente 0 0 None in
  let m' := Match.mk 1 1 10 (Some 20) 1 "Principal" Finalizado 2 0 (Some 10) in
  List.filter (λ r, SetRow.partidoId r =? 1) (sets s') = setsToCreate 1 m tiedSubmission
  ∧ setsToCreate 1 m tiedSubmission !! 1%nat = Some (SetRow.mk 1 2 7 7 (Some 20))
  ∧ (Match.setsJ1 m', Match.setsJ2 m') = countSets (delete 1%nat tiedSubmission).
Proof.
  intros s' m m'.
  exact (tied_set_goes_to_player2 finalToPlay 1 tiedSubmission 10 Finalizado
           s' m' m 1 (SetScore.mk 7 7) eq_refl eq_refl eq_refl eq_refl).
Defined.

(** C4 at work: a submission with a tied set is accepted.  The best-of-three
    final is recorded as won 2-0 by player 10; the tied second set is stored
    (for player 20) and counted for nobody. *)
Lemma tied_set_is_accepted :
  ∃ s' m',
    putResult finalToPlay 1 tiedSubmission 10 Finalizado = (s', Ok m')
    ∧ Match.estado m' = Finalizado
    ∧ (Match.setsJ1 m', Match.setsJ2 m') = (2, 0)
    ∧ sets s' = [SetRow.mk 1 1 11 5 (Some 10); SetRow.mk 1 2 7 7 (Some 20);
                 SetRow.mk 1 3 11 9 (Some 10)].
Proof. do 2 eexists. split; [by vm_compute|]. by vm_compute. Qed.

(** * Winner and state of a match in reachable stores *)

Lemma Forall_flat_map_all {A B} (P : B → Prop) (f : A → list B) (l : list A) :
  (∀ x, Forall P (f x)) → Forall P (flat_map f l).
Proof.
  intros H. induction l as [|x l IH]; simpl; [constructor|].
  apply Forall_app. by split.
Qed.

Lemma realMatch_sound tid p1 p2 r : dataSound (realMatch tid p1 p2 r).
Proof. by split. Qed.

Lemma byeMatch_sound tid p : dataSound (byeMatch tid p).
Proof. split; simpl; [|done]. intros w [= <-]. by left. Qed.

Ltac sound_rows :=
  repeat case_match;
  first [ by apply Forall_nil_2
        | apply Forall_cons_2; [|by apply Forall_nil_2] ].

Lemma generateEliminationBracket_sound rnd ps tid :
  Forall dataSound (generateEliminationBracket rnd ps tid).
Proof.
  apply Forall_flat_map_all. intros i. unfold firstRoundPair.
  sound_rows; auto using realMatch_sound, byeMatch_sound.
Qed.

Lemma roundRobinLoop_sound tid todo round arr :
  Forall dataSound (roundRobinLoop tid todo round arr).
Proof.
  revert round arr. induction todo as [|todo IH]; intros round arr; simpl;
    [constructor|].
  apply Forall_app. split; [|apply IH].
  apply Forall_flat_map_all. intros i. unfold roundRobinPair.
  sound_rows; auto using realMatch_sound.
Qed.

Lemma generateRoundRobinBracket_sound ps tid :
  Forall dataSound (generateRoundRobinBracket ps tid).
Proof. apply roundRobinLoop_sound. Qed.

Lemma manualPairs_sound tid positions slots :
  Forall dataSound (flat_map (manualPair tid positions) (evenIndices slots)).
Proof.
  apply Forall_flat_map_all. intros i. unfold manualPair.
  sound_rows; auto using realMatch_sound.
Qed.

Lemma nextRoundPairs_sound t r f ws n :
  Forall dataSound (flat_map (nextRoundPair t r f ws) (evenIndices n)).
Proof.
  apply Forall_flat_map_all. intros i. unfold nextRoundPair.
  sound_rows; split; simpl; try done.
  intros w [= <-]. by left.
Qed.

Lemma matchRows_sound next data :
  Forall dataSound data → Forall matchSound (matchRows next data).
Proof.
  intros H. revert next. induction H as [|d data [Hw Hf] _ IH]; intros next; simpl;
    constructor; [|apply IH].
  split; simpl; [done|].
  destruct (NewMatch.estado d) as [e|]; simpl; [|done]. intros ->. by apply Hf.
Qed.

Lemma matchCreateMany_sound s data :
  Forall matchSound (matches s) → Forall dataSound data →
  Forall matchSound (matches (matchCreateMany s data)).
Proof.
  intros Hs Hd. cbn. apply Forall_app. split; [done|by apply matchRows_sound].
Qed.

Lemma updateUnique_sound id f rows m :
  Forall matchSound rows →
  List.find (λ m, Match.id m =? id) rows = Some m →
  matchSound (f m) →
  Forall matchSound (updateUnique id f rows).
Proof.
  intros Hs Hfind Hf. induction Hs as [|x rows Hx Hrows IH]; simpl in *; [done|].
  destruct (Match.id x =? id).
  - injection Hfind as ->. by constructor.
  - constructor; [done|by apply IH].
Qed.

Lemma generateNextMatch_sound s m :
  Forall matchSound (matches s) → Forall matchSound (matches (generateNextMatch s m)).
Proof.
  intros Hs. unfold generateNextMatch.
  destruct (negb _); [done|].
  destruct (length _ <=? 1)%nat.
  - destruct (roundWinners _) as [|w [|? ?]]; try done.
    unfold finalizeTournament.
    by rewrite (proj1 (finalizeTournamentRun_tables _ _ _)).
  - destruct (0 <? _)%nat; [|done].
    apply matchCreateMany_sound; [done|apply nextRoundPairs_sound].
Qed.

Lemma step_sound s s' :
  step s s' → Forall matchSound (matches s) → Forall matchSound (matches s').
Proof.
  intros Hstep Hs. destruct Hstep as [rnd shuf s id playerIds|s id seeded|s id
                                     |s id submitted winnerId status|s id
                                     |s id force|s s' Hm _ _ _].
  - unfold postGenerateBracket.
    destruct (tournamentFindUnique s id) as [t|]; [|done].
    destruct (negb _); [done|]. destruct (_ <? 2)%nat; [done|].
    repeat case_match; simplify_eq; cbn [fst matches tournamentUpdateEstado withTournaments];
      try done; try (apply matchCreateMany_sound; [done|]);
      auto using generateEliminationBracket_sound, generateRoundRobinBracket_sound.
  - unfold postManualSeeding.
    destruct (tournamentFindUnique s id) as [t|]; [|done].
    destruct (negb (bool_decide _)); [done|]. destruct (negb (_ =? _)%nat); [done|].
    repeat case_match; simplify_eq; cbn [fst matches tournamentUpdateEstado withTournaments];
      try done; apply matchCreateMany_sound; try done;
      auto using generateRoundRobinBracket_sound, manualPairs_sound.
  - unfold putStart. destruct (matchFindUnique s id) as [m|] eqn:Hm; [|done].
    case_decide as Hest; [|done]. cbn.
    apply (updateUnique_sound _ _ _ m); [done..|].
    assert (matchSound m) as [Hw _].
    { rewrite Forall_forall in Hs. apply Hs.
      apply find_some in Hm as [Hm _]. by apply list_elem_of_In. }
    by split.
  - destruct (putResult s id submitted winnerId status) as [s' [m'|c e]] eqn:Hput.
    + destruct (matchFindUnique s id) as [m|] eqn:Hm.
      2:{ unfold putResult in Hput. by rewrite Hm in Hput. }
      destruct (putResult_accepted _ _ _ _ _ _ _ _ Hput Hm) as (-> & -> & _ & Hw).
      cbn [fst]. apply generateNextMatch_sound. cbn.
      apply (updateUnique_sound _ _ _ m); [done..|].
      split; simpl; [|done]. intros w [= <-]. done.
    + cbn [fst]. unfold putResult in Hput.
      repeat case_match; by simplify_eq.
  - unfold postCheckCompletion.
    destruct (tournamentFindUnique s id) as [t|]; [|done].
    case_decide; [done|]. destruct (negb _); [done|].
    destruct (List.find _ _); [|done]. cbn [fst]. unfold finalizeTournament.
    by rewrite (proj1 (finalizeTournamentRun_tables _ _ _)).
  - unfold deleteTournament.
    destruct (tournamentFindUnique s id) as [t|]; [|done].
    destruct (_ && negb force); [done|].
    destruct (removeAll _ _) as [s3 b] eqn:Hrem.
    apply removeAll_same in Hrem as (_ & Hm & _).
    assert (Forall matchSound (matches s3)) as Hs3.
    { rewrite Hm. cbn. destruct (force && _); cbn; [|done].
      rewrite Forall_forall in Hs |- *. intros m Hin.
      apply list_elem_of_In, filter_In in Hin as [Hin _].
      by apply Hs, list_elem_of_In. }
    by destruct b.
  - by rewrite Hm.
Qed.

(** C3, as amended.  In every store reachable through the engine's
    requests, every Finished match has a winner and that winner is one of its
    two players (the sole player for a bye); more generally a winner, whenever
    one is recorded, is one of the match's players.  (A winner may be recorded
    on a match that is not Finished: see the counterexample.) *)
Theorem reachable_matches_sound (s : Store) (m : Match.t) :
  reachable s → m ∈ matches s →
  (Match.estado m = Finalizado →
   ∃ w, Match.ganadorId m = Some w
        ∧ (w = Match.jugador1Id m ∨ Match.jugador2Id m = Some w)
        ∧ (Match.jugador2Id m = None → w = Match.jugador1Id m))
  ∧ (∀ w, Match.ganadorId m = Some w →
          w = Match.jugador1Id m ∨ Match.jugador2Id m = Some w).
Proof.
  intros Hreach Hin.
  assert (Forall matchSound (matches s)) as Hs.
  { clear m Hin. induction Hreach as [s H0|s s' _ IH Hstep].
    - rewrite H0. constructor.
    - by eapply step_sound. }
  rewrite Forall_forall in Hs. destruct (Hs m Hin) as [Hw Hf].
  split; [|done]. intros Hest.
  destruct (Match.ganadorId m) as [w|] eqn:Hg; [|by apply Hf in Hest].
  exists w. split_and!; [done|by apply Hw|].
  intros Hbye. destruct (Hw w eq_refl) as [?|?]; [done|congruence].
Qed.

Lemma afterFirstResult_reachable status : reachable (afterFirstResult status).
Proof.
  unfold afterFirstResult.
  apply (reachable_step (fst (postGenerateBracket (λ i, i) (λ l, l)
                                beforeBracket 1 [10; 20]))).
  - apply (reachable_step beforeBracket).
    + by apply reachable_init.
    + apply step_generate.
  - apply step_result.
Qed.

Lemma reachable_matches_sound_witness :
  let m := Match.mk 1 1 10 (Some 20) 1 "Principal" Finalizado 2 0 (Some 10) in
  (Match.estado m = Finalizado →
   ∃ w, Match.ganadorId m = Some w
        ∧ (w = Match.jugador1Id m ∨ Match.jugador2Id m = Some w)
        ∧ (Match.jugador2Id m = None → w = Match.jugador1Id m))
  ∧ (∀ w, Match.ganadorId m = Some w →
          w = Match.jugador1Id m ∨ Match.jugador2Id m = Some w).
Proof.
  intros m.
  apply (reachable_matches_sound (afterFirstResult Finalizado) m).
  - apply afterFirstResult_reachable.
  - vm_compute. left.
Defined.

(** C3 as stated fails: the result route stores the submitted state, so a
    complete result sent with state 'Pendiente' leaves a match that has a
    winner and is not Finished. *)
Lemma winner_without_finish_counterexample :
  reachable (afterFirstResult Pendiente)
  ∧ matches (afterFirstResult Pendiente)
    = [Match.mk 1 1 10 (Some 20) 1 "Principal" Pendiente 2 0 (Some 10)].
Proof. split; [apply afterFirstResult_reachable|by vm_compute]. Qed.

(** * Further properties of the engine *)

(** ** Match rows: what the requests keep *)








Lemma finalizeTournamentRun_next s t w :
  nextMatchId (fst (finalizeTournamentRun s t w)) = nextMatchId s.
Proof.
  unfold finalizeTournamentRun.
  destruct (tournamentFindUnique s t); [|done].
  case_decide; [done|].
  destruct (awardAll _ _) as [s2 b] eqn:Haward.
  apply awardAll_same in Haward as (_ & _ & _ & _ & _ & Hn).
  destruct b; simpl; [|done].
  destruct (updateRankings_spec s2) as [(_ & _ & _ & _ & _ & Hn') _].
  by rewrite Hn', Hn.
Qed.





(** ** Result recording and match start *)

Lemma find_updateUnique id f rows :
  (∀ m, Match.id (f m) = Match.id m) →
  List.find (λ m, Match.id m =? id) (updateUnique id f rows)
  = f <$> List.find (λ m, Match.id m =? id) rows.
Proof.
  intros Hf. induction rows as [|m rows IH]; [done|]. cbn [updateUnique List.find].
  destruct (Match.id m =? id) eqn:E; cbn [List.find].
  - by rewrite Hf, E.
  - by rewrite E.
Qed.

Lemma find_app_Some {A} (P : A → bool) l k x :
  List.find P l = Some x → List.find P (l ++ k) = Some x.
Proof.
  induction l as [|y l IH]; simpl; [done|]. destruct (P y); [done|apply IH].
Qed.

Lemma matchRows_Forall (P : Match.t → Prop) (Q : NewMatch.t → Prop) next data :
  (∀ i d, Q d → next ≤ i → P (matchOfData i d)) →
  Forall Q data → Forall P (matchRows next data).
Proof.
  intros HPQ H. revert next HPQ.
  induction H as [|d data Hd _ IH]; intros next HPQ; simpl; constructor.
  - apply HPQ; [done|lia].
  - apply IH. intros i d' Hd' Hi. apply HPQ; [done|lia].
Qed.

(** [generateNextMatch] keeps the match table as a prefix. *)
Lemma generateNextMatch_prefix (s : Store) (completedMatch : Match.t) :
  ∃ created, matches (generateNextMatch s completedMatch) = matches s ++ created.
Proof.
  unfold generateNextMatch.
  assert (∃ created : list Match.t, matches s = matches s ++ created) as Hsame
    by (exists []; by rewrite app_nil_r).
  destruct (negb _); [done|].
  destruct (length _ <=? 1)%nat.
  - destruct (roundWinners _) as [|w [|? ?]]; try done.
    exists []. unfold finalizeTournament.
    by rewrite (proj1 (finalizeTournamentRun_tables _ _ _)), app_nil_r.
  - destruct (0 <? _)%nat; [|done]. by eexists.
Qed.

(** X2.  Progression only appends: the matches that exist stay as they are
    and the Set rows are not touched; whatever [generateNextMatch] creates
    belongs to the completed match's tournament and phase, one round later,
    and takes the next ids. *)
Theorem generateNextMatch_extends (s : Store) (completedMatch : Match.t) :
  let s' := generateNextMatch s completedMatch in
  ∃ created,
    matches s' = matches s ++ created
    ∧ sets s' = sets s
    ∧ nextMatchId s' = nextMatchId s + Z.of_nat (length created)
    ∧ Forall (λ x, Match.torneoId x = Match.torneoId completedMatch
                   ∧ Match.ronda x = Match.ronda completedMatch + 1
                   ∧ Match.fase x = Match.fase completedMatch
                   ∧ nextMatchId s ≤ Match.id x) created.
Proof.
  cbv zeta. unfold generateNextMatch.
  assert (∃ created : list Match.t,
            matches s = matches s ++ created ∧ sets s = sets s
            ∧ nextMatchId s = nextMatchId s + Z.of_nat (length created)
            ∧ Forall (λ x, Match.torneoId x = Match.torneoId completedMatch
                           ∧ Match.ronda x = Match.ronda completedMatch + 1
                           ∧ Match.fase x = Match.fase completedMatch
                           ∧ nextMatchId s ≤ Match.id x) created) as Hsame.
  { exists []. rewrite app_nil_r. split_and!; try done. simpl. lia. }
  destruct (negb _); [done|].
  destruct (length _ <=? 1)%nat.
  - destruct (roundWinners _) as [|w [|? ?]]; try done.
    exists []. unfold finalizeTournament.
    rewrite (proj1 (finalizeTournamentRun_tables _ _ _)),
            (proj2 (finalizeTournamentRun_tables _ _ _)),
            finalizeTournamentRun_next, app_nil_r.
    split_and!; try done. simpl. lia.
  - destruct (0 <? _)%nat; [|done].
    eexists. split; [reflexivity|]. cbn [sets nextMatchId matchCreateMany withMatches].
    rewrite matchRows_length. split_and!; try done.
    apply (matchRows_Forall _
             (λ d, NewMatch.torneoId d = Match.torneoId completedMatch
                   ∧ NewMatch.ronda d = Match.ronda completedMatch + 1
                   ∧ NewMatch.fase d = Match.fase completedMatch));
      [|apply Forall_flat_map_all].
    + intros i d (H1 & H2 & H3) Hi. cbn. by split_and!.
    + intros i. unfold nextRoundPair. sound_rows; done.
Qed.

(** X3.  A rejected result submission changes nothing: whenever
    [PUT /:id/result] answers with an error the store is the one it started
    from.  The status is 404 exactly when the match does not exist; a 500 is
    answered only past the first four checks, that is for an existing match
    that is not finished, a declared winner who is one of its players and at
    least one set. *)
Theorem putResult_rejected (s : Store) (id : Z) (submitted : list SetScore.t)
    (winnerId : Z) (status : Estado) (s' : Store) (code : Z) (error : Rejection) :
  putResult s id submitted winnerId status = (s', Fail code error) →
  s' = s
  ∧ (code = 404 ∨ code = 400 ∨ code = 500)
  ∧ (code = 404 ↔ matchFindUnique s id = None)
  ∧ (code = 500 →
       ∃ m, matchFindUnique s id = Some m
            ∧ Match.estado m ≠ Finalizado
            ∧ (winnerId = Match.jugador1Id m ∨ Match.jugador2Id m = Some winnerId)
            ∧ submitted ≠ []).
Proof.
  unfold putResult. intros Hput.
  destruct (matchFindUnique s id) as [m|] eqn:Hm.
  2:{ simplify_eq. split_and!; auto; done. }
  case_decide as Hest; [simplify_eq; split_and!; auto; done|].
  destruct (negb (winnerId =? _) && _) eqn:Hwin;
    [simplify_eq; split_and!; auto; done|].
  destruct (Nat.eqb_spec (length submitted) 0) as [Hlen|Hlen];
    [simplify_eq; split_and!; auto; done|].
  assert (Hpast : ∃ m0, Some m = Some m0
            ∧ Match.estado m0 ≠ Finalizado
            ∧ (winnerId = Match.jugador1Id m0 ∨ Match.jugador2Id m0 = Some winnerId)
            ∧ submitted ≠ []).
  { exists m. split_and!; [done|done| |by intros ->].
    apply andb_false_iff in Hwin as [H|H]; apply negb_false_iff in H;
      [left; by apply Z.eqb_eq|right; by apply bool_decide_eq_true in H]. }
  repeat case_match; simplify_eq; split_and!; try done; auto;
    split; intros; done.
Qed.

Lemma putResult_rejected_witness :
  fst (putResult finalToPlay 1 [SetScore.mk 11 5] 10 Finalizado) = finalToPlay.
Proof.
  exact (proj1 (putResult_rejected finalToPlay 1 [SetScore.mk 11 5] 10 Finalizado
                  _ 400 MatchNotCompleted eq_refl)).
Defined.

(** The row written by an accepted submission is the one returned. *)
Lemma putResult_stored s id submitted winnerId status s' m' :
  putResult s id submitted winnerId status = (s', Ok m') →
  matchFindUnique s' id = Some m'.
Proof.
  intros Hput.
  destruct (matchFindUnique s id) as [m|] eqn:Hm.
  2:{ unfold putResult in Hput. by rewrite Hm in Hput. }
  destruct (putResult_accepted _ _ _ _ _ _ _ _ Hput Hm) as (Hm' & Hs' & _ & _).
  cbv zeta in Hm', Hs'. rewrite Hs'. unfold matchFindUnique.
  destruct (generateNextMatch_prefix
              (replaceSets (matchUpdate s id
                 (recordResult (countSets submitted).1 (countSets submitted).2
                               winnerId status))
                 id (setsToCreate id m submitted)) m')
    as (created & ->).
  apply find_app_Some. cbn [matches replaceSets withSets matchUpdate withMatches].
  rewrite find_updateUnique by done.
  unfold matchFindUnique in Hm. by rewrite Hm, Hm'.
Qed.

(** X4.  An accepted result is consistent with its sets: at least one set
    was sent and at most [2 * setsNeeded - 1]; the sets counted do not exceed
    the format; and the declared winner is the side that reached
    [setsNeeded = ceil(setsPorPartido / 2)] sets while the other side did
    not.  The match is stored with these counts, the declared winner and the
    submitted state, its id, tournament, players, round and phase as before:
    that row is what the store holds for the id afterwards. *)
Theorem putResult_accepted_score (s : Store) (id : Z)
    (submitted : list SetScore.t) (winnerId : Z) (status : Estado)
    (s' : Store) (m' m : Match.t) (t : Tournament.t) :
  putResult s id submitted winnerId status = (s', Ok m') →
  matchFindUnique s id = Some m →
  tournamentFindUnique s (Match.torneoId m) = Some t →
  let setsNeeded := setsNeededOf (Tournament.setsPorPartido t) in
  (1 ≤ Z.of_nat (length submitted) ≤ 2 * setsNeeded - 1)
  ∧ Match.setsJ1 m' + Match.setsJ2 m' ≤ Tournament.setsPorPartido t
  ∧ ((winnerId = Match.jugador1Id m
      ∧ setsNeeded ≤ Match.setsJ1 m' ∧ Match.setsJ2 m' < setsNeeded)
     ∨ (Match.jugador2Id m = Some winnerId
        ∧ setsNeeded ≤ Match.setsJ2 m' ∧ Match.setsJ1 m' < setsNeeded))
  ∧ Match.ganadorId m' = Some winnerId
  ∧ Match.estado m' = status
  ∧ (Match.setsJ1 m', Match.setsJ2 m') = countSets submitted
  ∧ matchFindUnique s' id = Some m'
  ∧ m' = Match.mk (Match.id m) (Match.torneoId m) (Match.jugador1Id m)
                  (Match.jugador2Id m) (Match.ronda m) (Match.fase m) status
                  (countSets submitted).1 (countSets submitted).2 (Some winnerId).
Proof.
  intros Hput Hm Ht setsNeeded.
  pose proof (putResult_stored _ _ _ _ _ _ _ Hput) as Hstored.
  pose proof (putResult_accepted _ _ _ _ _ _ _ _ Hput Hm) as (Hrow & _).
  cbv zeta in Hrow. unfold recordResult in Hrow.
  cut ((1 ≤ Z.of_nat (length submitted) ≤ 2 * setsNeeded - 1)
       ∧ Match.setsJ1 m' + Match.setsJ2 m' ≤ Tournament.setsPorPartido t
       ∧ ((winnerId = Match.jugador1Id m
           ∧ setsNeeded ≤ Match.setsJ1 m' ∧ Match.setsJ2 m' < setsNeeded)
          ∨ (Match.jugador2Id m = Some winnerId
             ∧ setsNeeded ≤ Match.setsJ2 m' ∧ Match.setsJ1 m' < setsNeeded))
       ∧ Match.ganadorId m' = Some winnerId
       ∧ Match.estado m' = status
       ∧ (Match.setsJ1 m', Match.setsJ2 m') = countSets submitted).
  { intros (H1 & H2 & H3 & H4 & H5 & H6).
    do 6 (split; [assumption|]). by split. }
  clear Hstored Hrow.
  unfold putResult in Hput.
  rewrite Hm, Ht in Hput. cbv zeta in Hput. fold setsNeeded in Hput.
  destruct (countSets submitted) as [J1 J2] eqn:Hcount. cbn [fst snd] in Hput.
  case_decide; [done|].
  destruct (negb (winnerId =? _) && _); [done|].
  destruct (Nat.eqb_spec (length submitted) 0); [done|].
  destruct (Z.leb_spec setsNeeded J1), (Z.leb_spec setsNeeded J2);
    cbn [orb andb negb] in Hput;
    destruct (Z.ltb_spec (setsNeeded * 2 - 1) (Z.of_nat (length submitted)));
    try done;
    destruct (Z.ltb_spec (Tournament.setsPorPartido t) (J1 + J2)); try done;
    case_bool_decide as Hw; cbn [negb] in Hput; cbv iota in Hput;
    try done; try (by destruct (Match.jugador2Id m)); cbv iota in Hw;
    simplify_eq;
    cbn [recordResult Match.setsJ1 Match.setsJ2 Match.ganadorId Match.estado];
    split_and!; try done; try lia.
  all: first [ left; split_and!; first [done|congruence|lia]
             | right; split_and!; first [done|congruence|lia] ].
Qed.

Lemma putResult_accepted_score_witness :
  let m' := Match.mk 1 1 10 (Some 20) 1 "Principal" Finalizado 2 0 (Some 10) in
  (Match.setsJ1 m', Match.setsJ2 m')
  = countSets [SetScore.mk 11 5; SetScore.mk 11 7].
Proof.
  intros m'.
  refine (proj1 (proj2 (proj2 (proj2 (proj2 (proj2
    (putResult_accepted_score finalToPlay 1 [SetScore.mk 11 5; SetScore.mk 11 7]
       10 Finalizado
       (fst (putResult finalToPlay 1 [SetScore.mk 11 5; SetScore.mk 11 7]
                       10 Finalizado))
       m' (Match.mk 1 1 10 (Some 20) 1 "Principal" Pendiente 0 0 None)
       (Tournament.mk 1 "Eliminación directa" EnCurso 3) _ _ _))))))).
  - by vm_compute.
  - reflexivity.
  - reflexivity.
Defined.

(** X5.  A result recorded as 'Finalizado' is final: the stored match is the
    one returned, and from then on every further result for that match is
    answered 400 "ya está finalizado" and the match cannot be started,
    the store staying as it is. *)
Theorem result_final_is_final (s : Store) (id : Z) (submitted : list SetScore.t)
    (winnerId : Z) (s' : Store) (m' : Match.t) :
  putResult s id submitted winnerId Finalizado = (s', Ok m') →
  matchFindUnique s' id = Some m'
  ∧ (∀ submitted' winnerId' status',
       putResult s' id submitted' winnerId' status'
       = (s', Fail 400 MatchAlreadyFinished))
  ∧ putStart s' id = (s', Fail 400 MatchNotPending).
Proof.
  intros Hput.
  destruct (matchFindUnique s id) as [m|] eqn:Hm.
  2:{ unfold putResult in Hput. by rewrite Hm in Hput. }
  destruct (putResult_accepted _ _ _ _ _ _ _ _ Hput Hm) as (Hm' & Hs' & _ & _).
  cbv zeta in Hm', Hs'.
  assert (Hfind : matchFindUnique s' id = Some m').
  { rewrite Hs'. unfold matchFindUnique.
    destruct (generateNextMatch_prefix
                (replaceSets (matchUpdate s id
                   (recordResult (countSets submitted).1 (countSets submitted).2
                                 winnerId Finalizado))
                   id (setsToCreate id m submitted)) m')
      as (created & ->).
    apply find_app_Some. cbn [matches replaceSets withSets matchUpdate withMatches].
    rewrite find_updateUnique by done.
    unfold matchFindUnique in Hm. by rewrite Hm, Hm'. }
  assert (Match.estado m' = Finalizado) as Hest by by rewrite Hm'.
  split_and!.
  - done.
  - intros submitted' winnerId' status'. unfold putResult.
    rewrite Hfind. by rewrite decide_True.
  - unfold putStart. rewrite Hfind. rewrite decide_False; [done|]. by rewrite Hest.
Qed.

Lemma result_final_is_final_witness :
  let s' := fst (putResult finalToPlay 1 [SetScore.mk 11 5; SetScore.mk 11 7]
                           10 Finalizado) in
  putStart s' 1 = (s', Fail 400 MatchNotPending).
Proof.
  intros s'.
  exact (proj2 (proj2
    (result_final_is_final finalToPlay 1 [SetScore.mk 11 5; SetScore.mk 11 7] 10
       s' (Match.mk 1 1 10 (Some 20) 1 "Principal" Finalizado 2 0 (Some 10))
       eq_refl))).
Defined.



(** ** Bracket requests *)

Lemma tournamentUpdateEstado_other s id e id' :
  id' ≠ id →
  tournamentFindUnique (tournamentUpdateEstado s id e) id'
  = tournamentFindUnique s id'.
Proof.
  intros Hne. unfold tournamentFindUnique, tournamentUpdateEstado.
  cbn [tournaments withTournaments].
  induction (tournaments s) as [|t l IH]; [done|]. rewrite fmap_cons. cbn [List.find].
  destruct (Z.eqb_spec (Tournament.id t) id) as [E|E]; cbn [Tournament.id Tournament.withEstado].
  - destruct (Z.eqb_spec (Tournament.id t) id'); [congruence|done].
  - destruct (Tournament.id t =? id'); [done|apply IH].
Qed.

(** What a bracket generation that is answered 200 has done. *)
Lemma postGenerateBracket_ok rnd shuf s id playerIds s' body :
  postGenerateBracket rnd shuf s id playerIds = (s', Ok body) →
  ∃ t data s1,
    tournamentFindUnique s id = Some t ∧ Tournament.estado t = Pendiente
    ∧ (2 ≤ length (playerFindManyIn s playerIds))%nat
    ∧ tournaments s1 = tournaments s ∧ matches s1 = matches s
    ∧ nextMatchId s1 = nextMatchId s ∧ sets s1 = sets s
    ∧ players s1 = players s ∧ tournamentResults s1 = tournamentResults s
    ∧ s' = tournamentUpdateEstado
             (if (0 <? length data)%nat then matchCreateMany s1 data else s1)
             id EnCurso
    ∧ body = BracketBody.mk (length data).
Proof.
  unfold postGenerateBracket.
  destruct (tournamentFindUnique s id) as [t|] eqn:Ht; [|done].
  case_bool_decide as Hest; [|done]. cbn [negb].
  destruct (Nat.ltb_spec (length (playerFindManyIn s playerIds)) 2); [done|].
  destruct (if String.eqb (Tournament.tipo t) "Eliminación directa" then _ else _)
    as [data s1] eqn:Hbranch.
  intros [= <- <-]. exists t, data, s1.
  assert (tournaments s1 = tournaments s ∧ matches s1 = matches s
          ∧ nextMatchId s1 = nextMatchId s ∧ sets s1 = sets s
          ∧ players s1 = players s ∧ tournamentResults s1 = tournamentResults s)
    as (? & ? & ? & ? & ? & ?).
  { repeat case_match; by simplify_eq. }
  by split_and!.
Qed.


(** X8.  A bracket is generated once.  When [POST /:id/generate-bracket]
    answers 200 it has appended exactly [matchesCreated] matches to the match
    table, left Set rows, players and result rows alone and put the
    tournament 'En curso'; any later bracket request for that tournament,
    automatic or manual, is answered 400 and changes nothing. *)
Theorem bracket_generated_once (rnd : nat → nat)
    (shuf : list Player.t → list Player.t) (s : Store) (id : Z)
    (playerIds : list Z) (s' : Store) (body : BracketBody.t) :
  postGenerateBracket rnd shuf s id playerIds = (s', Ok body) →
  (∃ created, matches s' = matches s ++ created
              ∧ length created = BracketBody.matchesCreated body)
  ∧ sets s' = sets s ∧ players s' = players s
  ∧ tournamentResults s' = tournamentResults s
  ∧ (∃ t, tournamentFindUnique s id = Some t
          ∧ tournamentFindUnique s' id = Some (Tournament.withEstado t EnCurso))
  ∧ (∀ rnd' shuf' playerIds',
       postGenerateBracket rnd' shuf' s' id playerIds'
       = (s', Fail 400 TournamentNotPending))
  ∧ (∀ seededPlayers,
       postManualSeeding s' id seededPlayers = (s', Fail 400 TournamentNotPending)).
Proof.
  intros Hok.
  apply postGenerateBracket_ok in Hok
    as (t & data & s1 & Ht & Hest & _ & Hts & Hms & Hn & Hsets & Hps & Hrs & -> & ->).
  set (s2 := if (0 <? length data)%nat then matchCreateMany s1 data else s1).
  assert (tournaments s2 = tournaments s) as Hts2.
  { unfold s2. by destruct (0 <? _)%nat. }
  assert (Hfind : tournamentFindUnique (tournamentUpdateEstado s2 id EnCurso) id
                  = Some (Tournament.withEstado t EnCurso)).
  { apply tournamentUpdateEstado_find. unfold tournamentFindUnique in *.
    by rewrite Hts2. }
  split_and!.
  - exists (if (0 <? length data)%nat then matchRows (nextMatchId s1) data else []).
    cbn [matches tournamentUpdateEstado withTournaments]. unfold s2.
    destruct (Nat.ltb_spec 0 (length data)) as [Hlen|Hlen].
    + cbn. by rewrite Hms, matchRows_length.
    + rewrite app_nil_r, Hms. split; [done|]. simpl. lia.
  - cbn. unfold s2. by destruct (0 <? _)%nat.
  - cbn. unfold s2. by destruct (0 <? _)%nat.
  - cbn. unfold s2. by destruct (0 <? _)%nat.
  - by exists t.
  - intros rnd' shuf' playerIds'. unfold postGenerateBracket. by rewrite Hfind.
  - intros seededPlayers. unfold postManualSeeding. by rewrite Hfind.
Qed.

Lemma bracket_generated_once_witness :
  let s' := fst (postGenerateBracket (λ i, i) (λ l, l) beforeBracket 1 [10; 20]) in
  postManualSeeding s' 1 [SeededPlayer.mk 1 10; SeededPlayer.mk 2 20]
  = (s', Fail 400 TournamentNotPending).
Proof.
  intros s'.
  exact (proj2 (proj2 (proj2 (proj2 (proj2 (proj2
    (bracket_generated_once (λ i, i) (λ l, l) beforeBracket 1 [10; 20] s'
       (BracketBody.mk 1) eq_refl))))))
    [SeededPlayer.mk 1 10; SeededPlayer.mk 2 20]).
Defined.


Lemma realMatch_open tid p1 p2 r : 1 ≤ r → isOpenPairing tid (realMatch tid p1 p2 r).
Proof. intros Hr. unfold isOpenPairing. simpl. by split_and!. Qed.

Lemma roundRobinLoop_open tid todo round arr :
  (1 ≤ round)%nat → Forall (isOpenPairing tid) (roundRobinLoop tid todo round arr).
Proof.
  revert round arr. induction todo as [|todo IH]; intros round arr Hr; simpl;
    [constructor|].
  apply Forall_app. split; [|apply IH; lia].
  apply Forall_flat_map_all. intros i. unfold roundRobinPair.
  sound_rows; apply realMatch_open; lia.
Qed.

Lemma manualPairs_open tid positions slots :
  Forall (isOpenPairing tid) (flat_map (manualPair tid positions) (evenIndices slots)).
Proof.
  apply Forall_flat_map_all. intros i. unfold manualPair.
  sound_rows; by apply realMatch_open.
Qed.

Lemma flat_map_length_le {A B} (f : A → list B) (l : list A) c :
  (∀ x, length (f x) ≤ c)%nat → (length (flat_map f l) ≤ length l * c)%nat.
Proof.
  intros Hf. induction l as [|x l IH]; simpl; [lia|].
  rewrite length_app. specialize (Hf x). lia.
Qed.

(** X9.  The manual draw never synthesizes a bye-advance.  When
    [POST /:id/manual-seeding] answers 200, every match it has appended
    belongs to the tournament, is 'Pendiente' with two players, 0-0 and no
    winner; for a tournament that is not a round robin they are round-1
    matches, at most one per pair of slots; and afterwards no bracket request
    for the tournament is accepted. *)
Theorem manual_seeding_pairings (s : Store) (id : Z)
    (seededPlayers : list SeededPlayer.t) (s' : Store) (body : BracketBody.t) :
  postManualSeeding s id seededPlayers = (s', Ok body) →
  ∃ t created,
    tournamentFindUnique s id = Some t
    ∧ matches s' = matches s ++ created
    ∧ length created = BracketBody.matchesCreated body
    ∧ Forall (λ m, Match.torneoId m = id ∧ Match.estado m = Pendiente
                   ∧ Match.ganadorId m = None ∧ is_Some (Match.jugador2Id m)
                   ∧ Match.setsJ1 m = 0 ∧ Match.setsJ2 m = 0
                   ∧ 1 ≤ Match.ronda m) created
    ∧ (Tournament.tipo t ≠ "Round Robin" →
       (length created ≤ Nat.div2 (S (totalSlots (length seededPlayers))))%nat
       ∧ Forall (λ m, Match.ronda m = 1) created)
    ∧ (∀ rnd shuf playerIds,
         postGenerateBracket rnd shuf s' id playerIds
         = (s', Fail 400 TournamentNotPending))
    ∧ (∀ seededPlayers',
         postManualSeeding s' id seededPlayers' = (s', Fail 400 TournamentNotPending)).
Proof.
  unfold postManualSeeding.
  destruct (tournamentFindUnique s id) as [t|] eqn:Ht; [|done].
  case_bool_decide as Hest; [|done]. cbn [negb].
  destruct (negb (_ =? _)%nat); [done|].
  set (found := playerFindManyIn s (SeededPlayer.playerId <$> seededPlayers)).
  set (slots := totalSlots (length seededPlayers)).
  set (positions := foldl (placeSeed found) (replicate slots None) seededPlayers).
  set (data := if String.eqb (Tournament.tipo t) "Round Robin"
               then generateRoundRobinBracket found id
               else flat_map (manualPair id positions) (evenIndices slots)).
  intros [= <- <-].
  assert (Hopen : Forall (isOpenPairing id) data).
  { unfold data. destruct (String.eqb _ _).
    - apply roundRobinLoop_open. lia.
    - apply manualPairs_open. }
  set (s2 := if (0 <? length data)%nat then matchCreateMany s data else s).
  assert (tournaments s2 = tournaments s) as Hts2.
  { unfold s2. by destruct (0 <? _)%nat. }
  assert (Hfind : tournamentFindUnique (tournamentUpdateEstado s2 id EnCurso) id
                  = Some (Tournament.withEstado t EnCurso)).
  { apply tournamentUpdateEstado_find. unfold tournamentFindUnique in *.
    by rewrite Hts2. }
  assert (Hm : matches s2 = matches s ++ matchRows (nextMatchId s) data).
  { unfold s2. destruct (Nat.ltb_spec 0 (length data)) as [Hlen|Hlen]; [done|].
    destruct data; [by rewrite app_nil_r|simpl in Hlen; lia]. }
  exists t, (matchRows (nextMatchId s) data). split_and!.
  - done.
  - done.
  - by rewrite matchRows_length.
  - apply (matchRows_Forall _ (isOpenPairing id)); [|done].
    intros i d (H1 & H2 & H3 & H4 & H5 & H6 & H7) _. cbn.
    rewrite H4, H5, H6, H7. by split_and!.
  - intros Htipo. unfold data.
    destruct (String.eqb_spec (Tournament.tipo t) "Round Robin"); [done|].
    split.
    + rewrite matchRows_length.
      etransitivity; [apply (flat_map_length_le _ _ 1)|].
      * intros i. unfold manualPair. repeat case_match; simpl; lia.
      * rewrite evenIndices_length. lia.
    + apply (matchRows_Forall _ (λ d, NewMatch.ronda d = 1)); [done|].
      apply Forall_flat_map_all. intros i. unfold manualPair. sound_rows; done.
  - intros rnd shuf playerIds. unfold postGenerateBracket. by rewrite Hfind.
  - intros seededPlayers'. unfold postManualSeeding. by rewrite Hfind.
Qed.

Lemma manual_seeding_pairings_witness :
  ∃ t created,
    tournamentFindUnique beforeBracket 1 = Some t
    ∧ matches (fst (postManualSeeding beforeBracket 1
                      [SeededPlayer.mk 1 10; SeededPlayer.mk 2 20]))
      = matches beforeBracket ++ created
    ∧ length created = 1%nat.
Proof.
  destruct (manual_seeding_pairings beforeBracket 1
              [SeededPlayer.mk 1 10; SeededPlayer.mk 2 20]
              (fst (postManualSeeding beforeBracket 1
                      [SeededPlayer.mk 1 10; SeededPlayer.mk 2 20]))
              (BracketBody.mk 1) eq_refl)
    as (t & created & H1 & H2 & H3 & _).
  by exists t, created.
Defined.

(** ** Groups *)

Lemma chunks_concat {A} (l : list A) (size count : nat) :
  concat ((λ i, take size (drop (i * size) l)) <$> seq 0 count)
  = take (count * size) l.
Proof.
  induction count as [|count IH]; [done|].
  rewrite seq_S, fmap_app, concat_app, IH. cbn [fmap list_fmap concat].
  rewrite app_nil_r, take_take_drop. f_equal. lia.
Qed.

Lemma generateGroups_jugadores shuf players numGroups tid :
  Group.jugadores <$> generateGroups shuf players numGroups tid
  = (λ i, take ((length players + numGroups - 1) / numGroups)
               (drop (i * ((length players + numGroups - 1) / numGroups))
                     (Player.id <$> shuf players)))
      <$> seq 0 numGroups.
Proof.
  unfold generateGroups. rewrite <- list_fmap_compose.
  apply list_fmap_ext. intros _ i _. simpl. by rewrite fmap_take, fmap_drop.
Qed.

(** [generateGroups] deals the shuffled players out in order: for at least
    one group, the groups read one after the other are the shuffled list. *)
Lemma generateGroups_concat shuf players numGroups tid :
  (1 ≤ numGroups)%nat → length (shuf players) = length players →
  concat (Group.jugadores <$> generateGroups shuf players numGroups tid)
  = Player.id <$> shuf players.
Proof.
  intros HG Hlen. rewrite generateGroups_jugadores, chunks_concat.
  apply take_ge. rewrite length_fmap, Hlen.
  pose proof (Nat.mul_succ_div_gt (length players + numGroups - 1) numGroups).
  set (pp := ((length players + numGroups - 1) / numGroups)%nat) in *.
  assert (numGroups * S pp = numGroups * pp + numGroups)%nat by lia.
  assert (numGroups * pp = pp * numGroups)%nat by lia. lia.
Qed.

(** X10.  For a pending 'Grupos + Eliminación' tournament with [n >= 2]
    resolved players, [POST /:id/generate-bracket] creates [ceil(n / 4)]
    groups and no match and answers [matchesCreated = 0].  The groups deal
    out the shuffled players in order, so each player is in exactly one
    group; every group belongs to the tournament and has between 1 and 4
    players. *)
Theorem groups_bracket (rnd : nat → nat) (shuf : list Player.t → list Player.t)
    (s : Store) (id : Z) (playerIds : list Z) (t : Tournament.t) :
  tournamentFindUnique s id = Some t →
  Tournament.estado t = Pendiente →
  Tournament.tipo t = "Grupos + Eliminación" →
  let found := playerFindManyIn s playerIds in
  (2 ≤ length found)%nat →
  shuf found ≡ₚ found →
  let numGroups := ((length found + 3) / 4)%nat in
  let created := generateGroups shuf found numGroups id in
  postGenerateBracket rnd shuf s id playerIds
  = (tournamentUpdateEstado (withGroups s (groups s ++ created)) id EnCurso,
     Ok (BracketBody.mk 0))
  ∧ length created = numGroups
  ∧ concat (Group.jugadores <$> created) = Player.id <$> shuf found
  ∧ concat (Group.jugadores <$> created) ≡ₚ Player.id <$> found
  ∧ Forall (λ g, Group.torneoId g = id
                 ∧ (1 ≤ length (Group.jugadores g) ≤ 4)%nat) created.
Proof.
  intros Ht Hest Htipo found Hn Hshuf numGroups created.
  assert (Hlen : length (shuf found) = length found) by by rewrite Hshuf.
  assert (HG : (1 ≤ numGroups)%nat) by (unfold numGroups; lia).
  assert (Hcat : concat (Group.jugadores <$> created) = Player.id <$> shuf found)
    by by apply generateGroups_concat.
  split_and!.
  - unfold postGenerateBracket. rewrite Ht, Hest, Htipo. fold found.
    destruct (Nat.ltb_spec (length found) 2); [lia|]. done.
  - unfold created, generateGroups. by rewrite length_fmap, length_seq.
  - done.
  - by rewrite Hcat, Hshuf.
  - unfold created, generateGroups.
    set (pp := ((length found + numGroups - 1) / numGroups)%nat).
    assert (Hpp : (pp ≤ 4)%nat).
    { apply Nat.lt_succ_r, Nat.Div0.div_lt_upper_bound. unfold numGroups. lia. }
    apply Forall_fmap, Forall_forall. intros i Hi. apply elem_of_seq in Hi.
    cbn. split; [done|].
    rewrite length_fmap, length_take, length_drop, Hlen.
    assert (i * pp ≤ i * 4)%nat by by apply Nat.mul_le_mono_l.
    assert (1 ≤ pp)%nat.
    { apply Nat.div_le_lower_bound; lia. }
    unfold numGroups in *. lia.
Qed.

Lemma groups_bracket_witness :
  length (generateGroups (λ l, l) (playerFindManyIn groupsPending [1; 2; 3; 4; 5; 6])
                         2 1) = 2%nat.
Proof.
  refine (proj1 (proj2
    (groups_bracket (λ i, i) (λ l, l) groupsPending 1 [1; 2; 3; 4; 5; 6]
       (Tournament.mk 1 "Grupos + Eliminación" Pendiente 5) _ _ _ _ _))).
  - reflexivity.
  - reflexivity.
  - reflexivity.
  - vm_compute. lia.
  - reflexivity.
Defined.

(** ** Who is seated where *)

Lemma seatedIds_app ms1 ms2 : seatedIds (ms1 ++ ms2) = seatedIds ms1 ++ seatedIds ms2.
Proof. unfold seatedIds. by rewrite flat_map_app. Qed.

(** The players seated by one pass of the pairing loop are players of the
    slots, in slot order. *)
Lemma firstRound_seated tid arr :
  seatedIds (flat_map (firstRoundPair tid arr) (evenIndices (length arr)))
  `sublist_of` slotIds arr.
Proof.
  induction arr as [|a|a b arr IH] using list_pair_ind.
  - done.
  - by destruct a.
  - cbn [length]. rewrite firstRound_SS, seatedIds_app.
    set (rest := flat_map _ (evenIndices (length arr))) in *.
    destruct a as [p1|], b as [p2|]; cbn.
    + by repeat apply sublist_skip.
    + by apply sublist_skip.
    + by apply sublist_cons.
    + done.
Qed.

Lemma slotIds_padByes players slots :
  slotIds (padByes (Some <$> players) slots) = Player.id <$> players.
Proof.
  unfold padByes, slotIds. rewrite flat_map_app.
  rewrite (flat_map_nil _ (replicate _ _)).
  - rewrite app_nil_r. induction players as [|p l IH]; [done|].
    cbn. by rewrite IH.
  - intros x Hx. by apply elem_of_replicate in Hx as [-> _].
Qed.

(** X11.  Single elimination seats nobody twice: over the first-round
    matches, the ids in [jugador1Id] and [jugador2Id] are pairwise different
    and all belong to players handed to the generator. *)
Theorem elimination_seats_once (rnd : nat → nat) (players : list Player.t)
    (tournamentId : Z) :
  (∀ i, rnd i ≤ i)%nat →
  NoDup (Player.id <$> players) →
  let ms := generateEliminationBracket rnd players tournamentId in
  NoDup (seatedIds ms) ∧ ∀ x, x ∈ seatedIds ms → x ∈ Player.id <$> players.
Proof.
  intros Hrnd Hids ms.
  set (padded := padByes (Some <$> players) (totalSlots (length players))).
  assert (Hperm : shuffle rnd padded ≡ₚ padded) by by apply shuffle_Permutation.
  assert (Hslots : length (shuffle rnd padded) = totalSlots (length players)).
  { rewrite (Permutation_length Hperm). unfold padded, padByes.
    rewrite length_app, length_replicate, length_fmap.
    destruct (decide (length players ≤ 1)%nat) as [Hsmall|Hbig].
    - unfold totalSlots, numRounds.
      destruct (length players) as [|[|?]]; [done|done|lia].
    - pose proof (totalSlots_ge (length players)). lia. }
  assert (Hsub : seatedIds ms `sublist_of` slotIds (shuffle rnd padded)).
  { unfold ms, generateEliminationBracket. fold padded.
    rewrite <- Hslots. apply firstRound_seated. }
  assert (Hids' : slotIds (shuffle rnd padded) ≡ₚ Player.id <$> players).
  { rewrite <- (slotIds_padByes players (totalSlots (length players))).
    apply Permutation_flat_map, Hperm. }
  split.
  - apply (sublist_NoDup _ (slotIds (shuffle rnd padded))); [|done].
    by rewrite Hids'.
  - intros x Hx. rewrite <- Hids'. by eapply elem_of_sublist.
Qed.

Lemma elimination_seats_once_witness :
  NoDup (seatedIds (generateEliminationBracket spreadDraw fivePlayers 1)).
Proof.
  refine (proj1 (elimination_seats_once spreadDraw fivePlayers 1 _ _)).
  - apply spreadDraw_bounded.
  - apply (bool_decide_unpack _). by vm_compute.
Defined.

Lemma flat_map_at_most_one {A B} (f : A → list B) (l : list A) :
  (∀ x, x ∈ l → (length (f x) ≤ 1)%nat) →
  (∀ x y, x ∈ l → y ∈ l → f x ≠ [] → f y ≠ [] → x = y) →
  NoDup l →
  (length (flat_map f l) ≤ 1)%nat.
Proof.
  induction l as [|x l IH]; intros Hlen Hone Hnd; [simpl; lia|].
  apply NoDup_cons in Hnd as [Hx Hnd]. cbn [flat_map]. rewrite length_app.
  destruct (f x) as [|b bs] eqn:Hfx.
  - simpl. apply IH; [|intros y z Hy Hz; apply Hone; by right|done].
    intros y Hy. apply Hlen. by right.
  - rewrite flat_map_nil.
    + rewrite <- Hfx. simpl. assert (length (f x) ≤ 1)%nat by (apply Hlen; by left). lia.
    + intros y Hy. destruct (f y) eqn:Hfy; [done|exfalso].
      apply Hx. rewrite (Hone x y); [done|by left|by right| |]; congruence.
Qed.

(** Within a round, the two positions of a pair are shared with no other
    pair. *)
Lemma circle_same_round h r i i' :
  let m := (2 * h + 1)%nat in
  (r < m → i ≤ h → i' ≤ h →
   circlePos m r i = circlePos m r i' ∨ circlePos m r i = circlePos m r (m - i')
   ∨ circlePos m r (m - i) = circlePos m r i'
   ∨ circlePos m r (m - i) = circlePos m r (m - i') →
   i = i')%nat.
Proof. intros m Hr Hi Hi' H. subst m. circle_cases; lia. Qed.

(** X12.  In the round-robin schedule for [n >= 2] distinct players, nobody
    plays twice in one round: for every round and every player id, at most
    one match of that round has the player on either side. *)
Theorem round_robin_once_per_round (players : list Player.t) (tournamentId : Z) :
  (2 ≤ length players)%nat →
  NoDup (Player.id <$> players) →
  ∀ (round x : Z),
    (length (List.filter (λ mt, (NewMatch.ronda mt =? round)%Z && involves x mt)
                         (generateRoundRobinBracket players tournamentId))
     ≤ 1)%nat.
Proof.
  intros Hn Hids round x.
  rewrite generateRoundRobinBracket_circle by lia. cbv zeta.
  set (h := ((length players - 1) / 2)%nat). set (m := (2 * h + 1)%nat).
  set (P := λ mt, (NewMatch.ronda mt =? round)%Z && involves x mt).
  assert (Hcell : ∀ r i, circleCell tournamentId players m r i ≠ [] →
            List.filter P (circleCell tournamentId players m r i) ≠ [] →
            Z.of_nat (S r) = round
            ∧ ∃ p, Player.id p = x
                   ∧ (players !! circlePos m r i = Some p
                      ∨ players !! circlePos m r (m - i) = Some p)).
  { intros r i _ Hne.
    destruct (circleCell_cases tournamentId players r i)
      as [E|(p1 & p2 & H1 & H2 & E)]; fold h m in E; rewrite E in Hne;
      [done|]. fold h m in H1, H2.
    cbn [List.filter] in Hne. destruct (P _) eqn:HP; [|done].
    apply andb_true_iff in HP as [Hround Hx]. cbn in Hround.
    apply Z.eqb_eq in Hround. split; [done|].
    apply bool_decide_eq_true in Hx. cbn in Hx.
    destruct Hx as [Hx|Hx]; [exists p1|exists p2]; split; try tauto.
    by simplify_eq. }
  rewrite filter_flat_map. apply flat_map_at_most_one; [| |apply NoDup_seq].
  - intros r Hr. apply elem_of_seq in Hr.
    rewrite filter_flat_map. apply flat_map_at_most_one; [| |apply NoDup_seq].
    + intros i _.
      destruct (circleCell_cases tournamentId players r i)
        as [E|(p1 & p2 & _ & _ & E)]; fold h m in E; rewrite E;
        [simpl; lia|].
      cbn [List.filter]. destruct (P _); simpl; lia.
    + intros i i' Hi Hi' Hne Hne'. apply elem_of_seq in Hi, Hi'.
      destruct (Hcell r i) as (_ & p & Hp & Hpos); [by intros E; rewrite E in Hne|done|].
      destruct (Hcell r i') as (_ & p' & Hp' & Hpos'); [by intros E; rewrite E in Hne'|done|].
      apply (circle_same_round h r i i'); [fold m; lia|lia|lia|]. fold m.
      assert (Heq : Player.id p = Player.id p') by congruence.
      destruct Hpos as [Hpos|Hpos], Hpos' as [Hpos'|Hpos'];
        pose proof (id_index players Hids _ _ _ _ Hpos Hpos' Heq); tauto.
  - intros r r' Hr Hr' Hne Hne'.
    assert (Hround : ∀ r0,
              List.filter P (flat_map (circleCell tournamentId players m r0)
                                      (seq 0 (S h))) ≠ [] →
              Z.of_nat (S r0) = round).
    { intros r0 H0. rewrite filter_flat_map in H0.
      destruct (flat_map _ _) as [|mt rest] eqn:E in H0; [done|].
      assert (Hin : In mt (flat_map (λ i, List.filter P
                (circleCell tournamentId players m r0 i)) (seq 0 (S h))))
        by (rewrite E; by left).
      apply in_flat_map in Hin as (i & _ & Hin).
      destruct (Hcell r0 i) as [Hrd _]; [| |done].
      - intros E0. by rewrite E0 in Hin.
      - intros E0. by rewrite E0 in Hin. }
    apply Hround in Hne, Hne'. lia.
Qed.

Lemma round_robin_once_per_round_witness :
  (length (List.filter (λ mt, (NewMatch.ronda mt =? 2)%Z && involves 3%Z mt)
                       (generateRoundRobinBracket fivePlayers 1)) ≤ 1)%nat.
Proof.
  refine (round_robin_once_per_round fivePlayers 1 _ _ 2 3%Z).
  - simpl. lia.
  - apply (bool_decide_unpack _). by vm_compute.
Defined.

(** ** Points and rankings *)

Lemma calculatePoints_low p : 9 ≤ p → calculatePoints p = 1.
Proof.
  intros Hp. destruct p as [|p|p]; [lia| |lia].
  do 5 (try (destruct p as [p|p|]; try lia; try reflexivity)).
Qed.

(** X13.  The award scale of [calculatePoints] never rises with the
    position: from position 1 on, a worse place earns at most what a better
    place earns, and every award lies between 1 and 100. *)
Theorem award_scale_descends (p q : Z) :
  1 ≤ p ≤ q →
  1 ≤ calculatePoints q ≤ calculatePoints p ∧ calculatePoints p ≤ 100.
Proof.
  intros Hpq.
  assert (Hp : p = 1 ∨ p = 2 ∨ p = 3 ∨ p = 4 ∨ p = 5 ∨ p = 6 ∨ p = 7 ∨ p = 8 ∨ 9 ≤ p)
    by lia.
  assert (Hq : q = 1 ∨ q = 2 ∨ q = 3 ∨ q = 4 ∨ q = 5 ∨ q = 6 ∨ q = 7 ∨ q = 8 ∨ 9 ≤ q)
    by lia.
  destruct_or!; subst; rewrite ?(calculatePoints_low p), ?(calculatePoints_low q) by done;
    cbn; lia.
Qed.

Lemma award_scale_descends_witness :
  1 ≤ calculatePoints 6 ≤ calculatePoints 3 ∧ calculatePoints 3 ≤ 100.
Proof. apply (award_scale_descends 3 6). lia. Defined.

Lemma setRankings_players s l :
  players (foldl (λ s ip, playerSetRanking s (Player.id ip.2) (Z.of_nat ip.1 + 1)) s l)
  = rankedAs l <$> players s.
Proof.
  revert s. induction l as [|ip l IH]; intros s; cbn [foldl].
  - unfold rankedAs. cbn [foldl]. by rewrite list_fmap_id.
  - rewrite IH. unfold playerSetRanking. cbn [players withPlayers].
    rewrite <- list_fmap_compose. by apply list_fmap_ext.
Qed.

Lemma rankedAs_id l p : Player.id (rankedAs l p) = Player.id p.
Proof.
  revert p. induction l as [|ip l IH]; intros p; [done|].
  unfold rankedAs in *. cbn [foldl]. rewrite IH. by destruct (_ =? _).
Qed.

Lemma rankedAs_unranked l p : unranked (rankedAs l p) = unranked p.
Proof.
  revert p. induction l as [|ip l IH]; intros p; [done|].
  unfold rankedAs in *. cbn [foldl]. rewrite IH. by destruct (_ =? _).
Qed.

Lemma rankedAs_absent (l : list Player.t) (f : nat → nat) p :
  Player.id p ∉ Player.id <$> l →
  rankedAs (imap (λ j, pair (f j)) l) p = p.
Proof.
  revert f. induction l as [|x l IH]; intros f Hp; [done|].
  rewrite fmap_cons, not_elem_of_cons in Hp. destruct Hp as [Hx Hl].
  unfold rankedAs in *. cbn [imap foldl snd fst].
  destruct (Z.eqb_spec (Player.id p) (Player.id x)); [done|].
  by apply (IH (f ∘ S)).
Qed.

Lemma rankedAs_present (l : list Player.t) (f : nat → nat) p i x :
  NoDup (Player.id <$> l) → l !! i = Some x → Player.id p = Player.id x →
  rankedAs (imap (λ j, pair (f j)) l) p = Player.withRanking p (Z.of_nat (f i) + 1).
Proof.
  revert f i. induction l as [|y l IH]; intros f i Hnd Hi Hp; [done|].
  rewrite fmap_cons in Hnd. apply NoDup_cons in Hnd as [Hy Hnd].
  unfold rankedAs in *. cbn [imap foldl snd fst].
  destruct i as [|i]; cbn in Hi.
  - injection Hi as ->. rewrite Hp, Z.eqb_refl.
    apply (rankedAs_absent l (f ∘ S)). cbn. by rewrite Hp.
  - destruct (Z.eqb_spec (Player.id p) (Player.id y)) as [E|E].
    + exfalso. apply Hy. rewrite <- E, Hp.
      apply list_elem_of_fmap. exists x. split; [done|].
      by eapply list_elem_of_lookup_2.
    + by apply (IH (f ∘ S) i).
Qed.

Lemma pointsOrder_sorted (l : list Player.t) :
  StronglySorted (λ a b, Player.puntos b ≤ Player.puntos a)
                 (sortBy (λ a b, Player.puntos b <=? Player.puntos a) l).
Proof.
  eapply StronglySorted_weaken;
    [|apply (sortBy_sorted (λ a b, Player.puntos b <=? Player.puntos a))].
  - intros a b H. by apply Z.leb_le in H.
  - intros a b. rewrite !Z.leb_le. lia.
  - intros a b c. rewrite !Z.leb_le. lia.
Qed.

(** X14.  With distinct player ids, [updateRankings] changes nothing but
    the [ranking] column, hands out the ranks [1 .. N] once each, and gives
    a player with more points a better (smaller) rank. *)
Theorem rankings_follow_points (s : Store) :
  NoDup (Player.id <$> players s) →
  let s' := updateRankings s in
  unranked <$> players s' = unranked <$> players s
  ∧ Player.ranking <$> players s'
    ≡ₚ (λ i, Z.of_nat i + 1) <$> seq 0 (length (players s))
  ∧ ∀ a b, a ∈ players s' → b ∈ players s' →
           Player.puntos b < Player.puntos a → Player.ranking a < Player.ranking b.
Proof.
  intros Hnd s'.
  set (sorted := sortBy (λ a b, Player.puntos b <=? Player.puntos a) (players s)).
  assert (Hperm : sorted ≡ₚ players s) by apply sortBy_Permutation.
  assert (Hnd' : NoDup (Player.id <$> sorted)) by by rewrite Hperm.
  assert (Hplayers : players s' = rankedAs (imap pair sorted) <$> players s)
    by apply setRankings_players.
  assert (Hrank : ∀ i x, sorted !! i = Some x →
            rankedAs (imap pair sorted) x = Player.withRanking x (Z.of_nat i + 1)).
  { intros i x Hi. by apply (rankedAs_present sorted id x i x). }
  split_and!.
  - rewrite Hplayers, <- list_fmap_compose. apply list_fmap_ext.
    intros _ x _. apply rankedAs_unranked.
  - rewrite Hplayers, <- list_fmap_compose, <- Hperm.
    match goal with |- ?u ≡ₚ ?v => assert (u = v) as ->; [|done] end.
    apply list_eq. intros i.
    assert (Hlen : length sorted = length (players s)) by apply sortBy_length.
    rewrite !list_lookup_fmap. destruct (sorted !! i) as [x|] eqn:Hi.
    + apply lookup_lt_Some in Hi as Hlt.
      rewrite lookup_seq_lt by lia. cbn. by rewrite (Hrank i x).
    + apply lookup_ge_None in Hi. by rewrite lookup_seq_ge by lia.
  - intros a b Ha Hb Hlt. rewrite Hplayers in Ha, Hb.
    apply list_elem_of_fmap in Ha as (pa & -> & Ha), Hb as (pb & -> & Hb).
    rewrite <- Hperm in Ha, Hb.
    apply list_elem_of_lookup in Ha as [ia Hia], Hb as [ib Hib].
    rewrite (Hrank _ _ Hia), (Hrank _ _ Hib) in *. cbn in *.
    destruct (Nat.lt_total ia ib) as [H|[H|H]]; [lia| |].
    + subst ib. simplify_eq. lia.
    + pose proof (StronglySorted_lookup _ _ _ _ _ _
                    (pointsOrder_sorted (players s)) H Hib Hia) as Hle.
      cbv beta in Hle. lia.
Qed.

Lemma rankings_follow_points_witness :
  Player.ranking <$> players (updateRankings (finalizeTournament roundOneOver 1 10))
  ≡ₚ (λ i, Z.of_nat i + 1) <$> seq 0 6.
Proof.
  refine (proj1 (proj2
    (rankings_follow_points (finalizeTournament roundOneOver 1 10) _))).
  apply (bool_decide_unpack _). by vm_compute.
Defined.

(** ** Points in the player table, deletion and the completion check *)

Lemma totalPuntos_sum s :
  totalPuntos s = foldr Z.add 0 (Player.puntos <$> players s).
Proof.
  unfold totalPuntos. induction (players s) as [|p l IH]; [done|].
  cbn. by rewrite IH.
Qed.

Lemma increment_rows (l : list Player.t) q amt :
  NoDup (Player.id <$> l) →
  foldr Z.add 0
    (Player.puntos
       <$> ((λ p, if Player.id p =? q
                  then Player.withPuntos p (Player.puntos p + amt) else p) <$> l))
  = foldr Z.add 0 (Player.puntos <$> l)
    + (if existsb (λ p, Player.id p =? q) l then amt else 0).
Proof.
  induction l as [|x l IH]; intros Hnd; [done|].
  rewrite fmap_cons in Hnd. apply NoDup_cons in Hnd as [Hx Hnd].
  cbn [fmap list_fmap foldr existsb]. rewrite (IH Hnd).
  destruct (Z.eqb_spec (Player.id x) q) as [E|E]; cbn [orb Player.puntos Player.withPuntos].
  - destruct (existsb _ l) eqn:Hex; [exfalso|lia].
    apply existsb_exists in Hex as (y & Hy & Hyq). apply Z.eqb_eq in Hyq.
    apply Hx, list_elem_of_fmap. exists y. split; [congruence|].
    by apply list_elem_of_In.
  - destruct (existsb _ l); lia.
Qed.

Lemma playerIncrement_total s q amt s' :
  NoDup (Player.id <$> players s) →
  playerIncrement s q amt = Some s' →
  totalPuntos s' = totalPuntos s + amt
  ∧ Player.id <$> players s' = Player.id <$> players s.
Proof.
  intros Hnd. unfold playerIncrement.
  destruct (existsb _ _) eqn:Hex; [|done]. intros [= <-]. split.
  - rewrite !totalPuntos_sum. cbn [players withPlayers].
    by rewrite increment_rows, Hex.
  - cbn [players withPlayers]. rewrite <- list_fmap_compose.
    apply list_fmap_ext. intros _ x _. cbn. by destruct (_ =? _).
Qed.

Lemma awardAll_total s rows s' :
  NoDup (Player.id <$> players s) →
  awardAll s rows = (s', true) →
  totalPuntos s' = totalPuntos s + sumAwards rows
  ∧ Player.id <$> players s' = Player.id <$> players s.
Proof.
  revert s. induction rows as [|r rows IH]; intros s Hnd; cbn [awardAll sumAwards foldr].
  - intros [= <-]. split; [lia|done].
  - destruct (playerIncrement s _ _) as [s1|] eqn:H1; [|done]. intros H.
    destruct (playerIncrement_total _ _ _ _ Hnd H1) as [Ht Hi].
    destruct (IH s1) as [Ht' Hi']; [by rewrite Hi|done|].
    fold (sumAwards rows). split; [lia|congruence].
Qed.

Lemma removeAll_total s rows s' :
  NoDup (Player.id <$> players s) →
  removeAll s rows = (s', true) →
  totalPuntos s' = totalPuntos s - sumAwards rows
  ∧ Player.id <$> players s' = Player.id <$> players s.
Proof.
  revert s. induction rows as [|r rows IH]; intros s Hnd; cbn [removeAll sumAwards foldr].
  - intros [= <-]. split; [lia|done].
  - unfold playerDecrement.
    destruct (playerIncrement s _ _) as [s1|] eqn:H1; [|done]. intros H.
    destruct (playerIncrement_total _ _ _ _ Hnd H1) as [Ht Hi].
    destruct (IH s1) as [Ht' Hi']; [by rewrite Hi|done|].
    fold (sumAwards rows). split; [lia|congruence].
Qed.

Lemma updateRankings_total s :
  totalPuntos (updateRankings s) = totalPuntos s
  ∧ Player.id <$> players (updateRankings s) = Player.id <$> players s.
Proof.
  rewrite !totalPuntos_sum. unfold updateRankings. rewrite setRankings_players.
  rewrite <- !list_fmap_compose. split; [f_equal|]; apply list_fmap_ext; intros _ x _; cbn.
  - change (Player.puntos (rankedAs ?l x)) with (Player.puntos (unranked (rankedAs l x))).
    by rewrite rankedAs_unranked.
  - apply rankedAs_id.
Qed.

(** X15.  A finalization that goes through adds to the player table, in
    total, exactly the points written into the new result rows, and neither
    adds nor removes a player. *)
Theorem finalize_points_conserved (s : Store) (tournamentId winnerId : Z)
    (s' : Store) :
  NoDup (Player.id <$> players s) →
  finalizeTournamentRun s tournamentId winnerId = (s', Completed) →
  totalPuntos s' = totalPuntos s + sumAwards (finalResults s tournamentId)
  ∧ Player.id <$> players s' = Player.id <$> players s.
Proof.
  intros Hnd. unfold finalizeTournamentRun.
  destruct (tournamentFindUnique s tournamentId) as [x|]; [|done].
  case_decide; [done|].
  destruct (awardAll _ _) as [s2 [|]] eqn:Haward; [|done].
  intros [= <-].
  apply awardAll_total in Haward as [Ht Hi]; [|done].
  destruct (updateRankings_total s2) as [Ht' Hi'].
  split.
  - transitivity (totalPuntos (updateRankings s2)); [done|].
    rewrite Ht', Ht. done.
  - transitivity (Player.id <$> players (updateRankings s2)); [done|].
    by rewrite Hi', Hi.
Qed.

Lemma finalize_points_conserved_witness :
  totalPuntos (finalizeTournament roundOneOver 1 10)
  = totalPuntos roundOneOver + sumAwards (finalResults roundOneOver 1).
Proof.
  refine (proj1 (finalize_points_conserved roundOneOver 1 10
                   (finalizeTournament roundOneOver 1 10) _ _)).
  - apply (bool_decide_unpack _). by vm_compute.
  - by vm_compute.
Defined.

Lemma reduce_sum (rows : list TournamentResult.t) (a : Z) :
  foldl (λ sum r, sum + TournamentResult.puntosGanados r) a rows
  = a + sumAwards rows.
Proof.
  revert a. induction rows as [|r rows IH]; intros a; cbn [foldl sumAwards foldr].
  - lia.
  - rewrite IH. fold (sumAwards rows). lia.
Qed.

(** X16.  The figures in the reply of a [DELETE /:id] that goes through are
    what happened: [pointsRemoved] is the number of result rows the
    tournament had, [totalPointsRemoved] is the sum of their points, and
    with distinct player ids the points of all players together fall by
    exactly that sum. *)
Theorem delete_reports_points_removed (s : Store) (id : Z) (force : bool)
    (s' : Store) (body : DeleteBody.t) :
  NoDup (Player.id <$> players s) →
  deleteTournament s id force = (s', Ok body) →
  DeleteBody.pointsRemoved body = length (resultsOf s id)
  ∧ DeleteBody.totalPointsRemoved body = sumAwards (resultsOf s id)
  ∧ totalPuntos s' = totalPuntos s - DeleteBody.totalPointsRemoved body.
Proof.
  intros Hnd. unfold deleteTournament.
  destruct (tournamentFindUnique s id); [|done].
  destruct (_ && negb force); [done|].
  destruct (removeAll _ _) as [s3 [|]] eqn:Hrem; [|done].
  intros [= <- <-]. cbn [DeleteBody.pointsRemoved DeleteBody.totalPointsRemoved].
  fold (resultsOf s id) in *. rewrite reduce_sum.
  apply removeAll_total in Hrem as [Ht _].
  2:{ cbn. by destruct (force && _). }
  split_and!; [done|lia|].
  transitivity (totalPuntos s3); [done|]. rewrite Ht.
  unfold totalPuntos. cbn. destruct (force && _); cbn; lia.
Qed.

Lemma delete_reports_points_removed_witness :
  DeleteBody.totalPointsRemoved
    (DeleteBody.mk 3 225) = sumAwards (resultsOf (finalizeTournament roundOneOver 1 10) 1).
Proof.
  refine (proj1 (proj2
    (delete_reports_points_removed (finalizeTournament roundOneOver 1 10) 1 true
       (fst (deleteTournament (finalizeTournament roundOneOver 1 10) 1 true))
       (DeleteBody.mk 3 225) _ _))).
  - apply (bool_decide_unpack _). by vm_compute.
  - by vm_compute.
Defined.

Lemma find_filter_out {A} (key : A → Z) (l : list A) (id id' : Z) :
  List.find (λ x, key x =? id') (List.filter (λ x, negb (key x =? id)) l)
  = if decide (id' = id) then None else List.find (λ x, key x =? id') l.
Proof.
  induction l as [|x l IH]; simpl; [by case_decide|].
  destruct (Z.eqb_spec (key x) id) as [E|E]; simpl.
  - rewrite IH. case_decide; [done|].
    destruct (Z.eqb_spec (key x) id'); [congruence|done].
  - destruct (Z.eqb_spec (key x) id') as [E'|E']; [|done].
    case_decide; [congruence|done].
Qed.

(** X17.  After a [DELETE /:id] that goes through, the tournament is gone
    and every other tournament is as before; the matches left are those of
    the other tournaments, unchanged, and the match id counter is where it
    was. *)
Theorem delete_removes_tournament (s : Store) (id : Z) (force : bool)
    (s' : Store) (body : DeleteBody.t) :
  deleteTournament s id force = (s', Ok body) →
  tournamentFindUnique s' id = None
  ∧ (∀ id', id' ≠ id → tournamentFindUnique s' id' = tournamentFindUnique s id')
  ∧ matches s' = List.filter (λ m, negb (Match.torneoId m =? id)) (matches s)
  ∧ nextMatchId s' = nextMatchId s.
Proof.
  unfold deleteTournament.
  destruct (tournamentFindUnique s id); [|done].
  destruct ((0 <? _)%nat && negb force) eqn:Hguard; [done|].
  destruct (removeAll _ _) as [s3 [|]] eqn:Hrem; [|done].
  intros [= <- _].
  apply removeAll_same in Hrem as (Ht & Hm & _ & _ & _ & Hn).
  cbn [tournaments matches nextMatchId withTournamentResults] in Ht, Hm, Hn.
  assert (Htab : tournaments (tournamentDelete s3 id)
                 = List.filter (λ t, negb (Tournament.id t =? id)) (tournaments s)).
  { cbn. rewrite Ht. by destruct (force && _). }
  split_and!.
  - unfold tournamentFindUnique. rewrite Htab, find_filter_out. by case_decide.
  - intros id' Hne. unfold tournamentFindUnique.
    rewrite Htab, find_filter_out. by case_decide.
  - cbn [tournamentDelete matches withTournaments]. rewrite Hm.
    destruct (0 <? _)%nat eqn:Hc; destruct force; try done.
    all: apply Nat.ltb_ge in Hc; cbn [andb].
    all: destruct (List.filter _ (matches s)) as [|m ms] eqn:Hf in Hc;
      [|cbn in Hc; lia].
    all: symmetry; apply forallb_filter_id, forallb_forall; intros m Hin.
    all: destruct (Match.torneoId m =? id) eqn:E; [|done].
    all: assert (In m (List.filter (λ m, Match.torneoId m =? id) (matches s)))
      by (by apply filter_In).
    all: by rewrite Hf in *.
  - cbn [tournamentDelete nextMatchId withTournaments]. rewrite Hn.
    by destruct (force && _).
Qed.

Lemma delete_removes_tournament_witness :
  tournamentFindUnique
    (fst (deleteTournament (finalizeTournament roundOneOver 1 10) 1 true)) 1 = None.
Proof.
  refine (proj1
    (delete_removes_tournament (finalizeTournament roundOneOver 1 10) 1 true
       (fst (deleteTournament (finalizeTournament roundOneOver 1 10) 1 true))
       (DeleteBody.mk 3 225) _)).
  by vm_compute.
Defined.

(** X18.  Without [force], a tournament that has a match is never deleted:
    the request is answered 404 or 400 and the store is left as it was. *)
Theorem delete_needs_force (s : Store) (id : Z) (m : Match.t) :
  m ∈ matches s → Match.torneoId m = id →
  deleteTournament s id false = (s, Fail 404 TournamentNotFound)
  ∨ deleteTournament s id false = (s, Fail 400 HasMatches).
Proof.
  intros Hm Hid. unfold deleteTournament.
  destruct (tournamentFindUnique s id); [right|by left].
  destruct (List.filter _ (matches s)) as [|x xs] eqn:Hf; [exfalso|done].
  assert (In m (List.filter (λ m, Match.torneoId m =? id) (matches s))).
  { apply filter_In. split; [by apply list_elem_of_In|by apply Z.eqb_eq]. }
  by rewrite Hf in *.
Qed.

Lemma delete_needs_force_witness :
  deleteTournament finalToPlay 1 false = (finalToPlay, Fail 404 TournamentNotFound)
  ∨ deleteTournament finalToPlay 1 false = (finalToPlay, Fail 400 HasMatches).
Proof.
  apply (delete_needs_force finalToPlay 1
           (Match.mk 1 1 10 (Some 20) 1 "Principal" Pendiente 0 0 None)).
  - by left.
  - reflexivity.
Defined.

(** ** The completion check and access control *)

Lemma tournamentMatches_elem_of s t m :
  m ∈ tournamentMatches s t ↔ m ∈ matches s ∧ Match.torneoId m = t.
Proof.
  unfold tournamentMatches. rewrite sortBy_elem_of, !list_elem_of_In, filter_In.
  by rewrite Z.eqb_eq.
Qed.

(** X19.  [POST /check-tournament-completion/:tournamentId] never touches
    a match or a set.  It answers "finalizado exitosamente" only when every
    match of the tournament is finished and one of them has a winner, and
    with any other answer the store is left as it was; the counts of the
    "no está completo" answer are those of the tournament's matches, with
    at least one match pending. *)
Theorem check_completion_effect (s : Store) (tournamentId : Z) :
  let s' := fst (postCheckCompletion s tournamentId) in
  let reply := snd (postCheckCompletion s tournamentId) in
  let ms := List.filter (λ m, Match.torneoId m =? tournamentId) (matches s) in
  matches s' = matches s ∧ sets s' = sets s
  ∧ (reply = Ok FinalizadoAhora →
       (∀ m, m ∈ ms → Match.estado m = Finalizado)
       ∧ ∃ m, m ∈ ms ∧ truthy (Match.ganadorId m) = true)
  ∧ (reply ≠ Ok FinalizadoAhora → s' = s)
  ∧ (∀ pending total, reply = Ok (NoCompleto pending total) →
       (1 ≤ pending ≤ total)%nat ∧ total = length ms
       ∧ pending = length (List.filter
                             (λ m, negb (bool_decide (Match.estado m = Finalizado))) ms)).
Proof.
  intros s' reply ms. subst s' reply. unfold postCheckCompletion.
  assert (Hperm : tournamentMatches s tournamentId ≡ₚ ms)
    by apply tournamentMatches_Permutation.
  assert (Hcount : ∀ P : Match.t → bool,
            length (List.filter P (tournamentMatches s tournamentId))
            = length (List.filter P ms)).
  { intros P. induction Hperm; simpl; repeat destruct (P _); simpl; lia. }
  destruct (tournamentFindUnique s tournamentId) as [t|]; [|by split_and!].
  case_decide; [by split_and!|].
  destruct (forallb _ _) eqn:Hall; cbn [negb].
  - destruct (List.find _ _) as [finalMatch|] eqn:Hfind; [|by split_and!].
    cbn [fst snd].
    destruct (finalizeTournamentRun_tables s tournamentId
                (default 0 (Match.ganadorId finalMatch))) as [Hm Hs].
    split_and!; try done.
    intros _. split.
    + intros m Hm'. rewrite <- Hperm in Hm'.
      rewrite forallb_forall in Hall.
      apply list_elem_of_In, Hall, bool_decide_eq_true in Hm'. done.
    + exists finalMatch. apply find_some in Hfind as [Hin Hw].
      split; [|done]. rewrite <- Hperm. by apply list_elem_of_In.
  - cbn [fst snd]. split_and!; try done.
    intros pending total [= <- <-].
    rewrite Hcount, (Permutation_length Hperm). split_and!; try done.
    + destruct (List.filter _ ms) as [|x xs] eqn:Hf; [exfalso|cbn; lia].
      assert (forallb (λ m, bool_decide (Match.estado m = Finalizado))
                      (tournamentMatches s tournamentId) = true); [|congruence].
      apply forallb_forall. intros m Hm. apply list_elem_of_In in Hm.
      rewrite Hperm in Hm.
      destruct (bool_decide (Match.estado m = Finalizado)) eqn:E; [done|exfalso].
      assert (In m (List.filter
                (λ m, negb (bool_decide (Match.estado m = Finalizado))) ms)).
      { apply filter_In. split; [by apply list_elem_of_In|by rewrite E]. }
      by rewrite Hf in *.
    + apply filter_length_le.
Qed.

Lemma check_completion_effect_witness :
  ∃ m, m ∈ List.filter (λ m, Match.torneoId m =? 1) (matches roundOneOver)
       ∧ truthy (Match.ganadorId m) = true.
Proof.
  refine (proj2 (proj1 (proj2 (proj2 (check_completion_effect roundOneOver 1))) _)).
  reflexivity.
Defined.

(** X20.  The three guards built from [requireRole] are nested: whoever
    passes [requireAdmin] passes [requireArbitro], whoever passes
    [requireArbitro] passes [requireJugador]; a request without an
    authenticated user is answered 401 by each, and a refusal of an
    authenticated user is a 403. *)
Theorem role_guards_nested (user : option User.t) :
  (requireAdmin user = Next → requireArbitro user = Next)
  ∧ (requireArbitro user = Next → requireJugador user = Next)
  ∧ (∀ roles, requireRole roles user = Deny 401 ↔ user = None)
  ∧ (∀ roles code, is_Some user → requireRole roles user = Deny code → code = 403).
Proof.
  unfold requireAdmin, requireArbitro, requireJugador, requireRole.
  destruct user as [u|]; split_and!; try done.
  - case_bool_decide as H1; [|done]. intros _.
    rewrite bool_decide_eq_true_2; [done|].
    apply elem_of_cons. left. by apply list_elem_of_singleton in H1.
  - case_bool_decide as H1; [|done]. intros _.
    rewrite bool_decide_eq_true_2; [done|].
    rewrite !elem_of_cons in *. tauto.
  - intros roles. by case_bool_decide.
  - intros roles code _. case_bool_decide; [done|]. by intros [= <-].
Qed.

Lemma role_guards_nested_witness :
  requireArbitro (Some (User.mk 1 "" "" "Admin")) = Next.
Proof.
  refine (proj1 (role_guards_nested (Some (User.mk 1 "" "" "Admin"))) _).
  reflexivity.
Defined.
